(** * A shallow embedding of the TTL2 random-map-script preprocessor
    ([src/preprocessor/src/lib.rs]).

    Modelling conventions.
    - A Rust [String]/[&str] is a [string]; each [ascii] stands for one
      character, read as the Unicode scalar value U+0000..U+00FF with the
      same code.  Every index the code takes comes from [find]/[rfind] of an
      ASCII pattern, so byte offsets and character offsets select the same
      slices, and the model indexes by characters.
    - Upper-cased text can leave U+0000..U+00FF (U+00B5 gives U+039C), so
      [to_uppercase] yields the list of its Unicode scalar values.
    - A Rust panic ([unwrap] on [None]/[Err], a failed [assert!]/[expect],
      an out-of-range slice) is [None]; a normal result is [Some].
    - [u32]/[usize] values are [N]; indices and lengths are [nat]. *)

From Stdlib Require Import Bool Arith NArith Lia List Ascii String.
From Stdlib Require Import Numbers.DecimalString.
Import ListNotations.
Open Scope string_scope.
Open Scope nat_scope.
Open Scope list_scope.

Local Infix "+++" := String.append (at level 60, right associativity).

(** ** Characters and string primitives of Rust's [str] *)

Definition code (c : ascii) : nat := nat_of_ascii c.

(** [char::is_whitespace] (Unicode White_Space) on U+0000..U+00FF. *)
Definition is_whitespace (c : ascii) : bool :=
  let n := code c in
  ((9 <=? n) && (n <=? 13)) || (n =? 32) || (n =? 133) || (n =? 160).

(** [char::to_ascii_uppercase]. *)
Definition ascii_upper (c : ascii) : ascii :=
  let n := code c in
  if (97 <=? n) && (n <=? 122) then ascii_of_nat (n - 32) else c.

(** The simple capital of a character of U+0000..U+00FF that stays in this
    range: ASCII and Latin-1 letters map to their capitals. *)
Definition upper_char (c : ascii) : ascii :=
  let n := code c in
  if ((97 <=? n) && (n <=? 122)) || ((224 <=? n) && (n <=? 254) && negb (n =? 247))
  then ascii_of_nat (n - 32) else c.

(** Text that may leave U+0000..U+00FF: its Unicode scalar values. *)
Definition ustr : Type := list nat.

(** The scalar values of a [string]. *)
Fixpoint codes (s : string) : ustr :=
  match s with
  | EmptyString => []
  | String c t => code c :: codes t
  end.

(** [char::to_uppercase] on U+0000..U+00FF: U+00DF gives ["SS"], U+00B5
    gives U+039C, U+00FF gives U+0178, every other character its
    [upper_char]. *)
Definition upper_codes (c : ascii) : ustr :=
  let n := code c in
  if n =? 223 then [83; 83]
  else if n =? 181 then [924]
  else if n =? 255 then [376]
  else [code (upper_char c)].

(** [str::to_uppercase]. *)
Fixpoint to_uppercase (s : string) : ustr :=
  match s with
  | EmptyString => []
  | String c t => upper_codes c ++ to_uppercase t
  end.

(** [==] on the upper-cased text. *)
Fixpoint ueqb (u v : ustr) : bool :=
  match u, v with
  | [], [] => true
  | x :: u', y :: v' => Nat.eqb x y && ueqb u' v'
  | _, _ => false
  end.

Fixpoint uprefix (p u : ustr) : bool :=
  match p, u with
  | [], _ => true
  | x :: p', y :: u' => Nat.eqb x y && uprefix p' u'
  | _, [] => false
  end.

(** [str::starts_with] on the upper-cased text. *)
Definition ustarts_with (p : string) (u : ustr) : bool := uprefix (codes p) u.

Fixpoint ucontains_codes (p u : ustr) : bool :=
  uprefix p u || match u with [] => false | _ :: t => ucontains_codes p t end.

(** [str::contains] on the upper-cased text. *)
Definition ucontains (p : string) (u : ustr) : bool := ucontains_codes (codes p) u.

(** [str::eq_ignore_ascii_case]. *)
Fixpoint eq_ignore_ascii_case (a b : string) : bool :=
  match a, b with
  | EmptyString, EmptyString => true
  | String c a', String d b' =>
      Ascii.eqb (ascii_upper c) (ascii_upper d) && eq_ignore_ascii_case a' b'
  | _, _ => false
  end.

(** [str::starts_with]. *)
Definition starts_with (p s : string) : bool := String.prefix p s.

(** [str::find] for a string pattern: index of the first occurrence. *)
Fixpoint find_str (p s : string) : option nat :=
  if String.prefix p s then Some 0
  else match s with
       | EmptyString => None
       | String _ t => option_map S (find_str p t)
       end.

Definition find_char (c : ascii) (s : string) : option nat :=
  find_str (String c EmptyString) s.

(** [str::rfind] for a character: index of the last occurrence. *)
Fixpoint rfind_char (c : ascii) (s : string) : option nat :=
  match s with
  | EmptyString => None
  | String d t =>
      match rfind_char c t with
      | Some k => Some (S k)
      | None => if Ascii.eqb c d then Some 0 else None
      end
  end.

(** [str::contains] for a string pattern. *)
Definition contains (p s : string) : bool :=
  match find_str p s with Some _ => true | None => false end.

(** [&s[a..b]]: panics unless [a <= b <= len]. *)
Definition slice (a b : nat) (s : string) : option string :=
  if (a <=? b) && (b <=? String.length s) then Some (substring a (b - a) s)
  else None.

(** [&s[a..]] with [a <= len] (every use in the code has it). *)
Definition slice_from (a : nat) (s : string) : string :=
  substring a (String.length s - a) s.

(** [&s[..b]]. *)
Definition slice_to (b : nat) (s : string) : string := substring 0 b s.

(** [[String]::join]. *)
Fixpoint join (sep : string) (l : list string) : string :=
  match l with
  | [] => EmptyString
  | [x] => x
  | x :: rest => x +++ sep +++ join sep rest
  end.

(** [str::split] on a one-character pattern: always at least one piece. *)
Fixpoint split_char (c : ascii) (s : string) : list string :=
  match s with
  | EmptyString => [EmptyString]
  | String d t =>
      if Ascii.eqb c d then EmptyString :: split_char c t
      else match split_char c t with
           | [] => [String d EmptyString]
           | w :: ws => String d w :: ws
           end
  end.

(** [str::repeat]. *)
Fixpoint repeat_str (s : string) (n : nat) : string :=
  match n with O => EmptyString | S k => s +++ repeat_str s k end.

Definition is_digit (c : ascii) : bool := (48 <=? code c) && (code c <=? 57).

Fixpoint all_digits (s : string) : bool :=
  match s with
  | EmptyString => true
  | String c t => is_digit c && all_digits t
  end.

Fixpoint digits_value (acc : N) (s : string) : N :=
  match s with
  | EmptyString => acc
  | String c t => digits_value (acc * 10 + N.of_nat (code c - 48)) t
  end.

(** [str::parse] for an unsigned integer type of [bits] bits: an optional
    [+], then at least one decimal digit, and a value that fits. *)
Definition parse_unsigned (bits : N) (s : string) : option N :=
  let body := match s with
              | String "+"%char t => t
              | _ => s
              end in
  match body with
  | EmptyString => None
  | _ => if all_digits body then
           let v := digits_value 0 body in
           if (v <? 2 ^ bits)%N then Some v else None
         else None
  end.

Definition parse_u32 := parse_unsigned 32.
Definition parse_usize := parse_unsigned 64.

(** Decimal rendering of an unsigned integer ([format!("{v}")]). *)
Definition string_of_N (v : N) : string :=
  NilEmpty.string_of_uint (N.to_uint v).

(** ** Label generation: [probs], [next_label] *)

(** [probs n m]: the first [n % m] values are [n / m + 1], the remaining
    [m - n % m] are [n / m].  [m = 0] is a division by zero.  The value
    [q + 1] is only computed when [r > 0], hence [m >= 2] and [q < 2^31],
    so it never overflows. *)
Definition probs (n m : N) : option (list N) :=
  if (m =? 0)%N then None
  else
    let q := (n / m)%N in
    let r := (n mod m)%N in
    Some (repeat (q + 1)%N (N.to_nat r) ++ repeat q (N.to_nat m - N.to_nat r)).

(** The last character of a string and the text before it. *)
Fixpoint split_last (s : string) : option (string * ascii) :=
  match s with
  | EmptyString => None
  | String c EmptyString => Some (EmptyString, c)
  | String c t =>
      match split_last t with
      | Some (p, l) => Some (String c p, l)
      | None => None
      end
  end.

(** [next_label].  The code reads the last BYTE [c] of [label]:
    - an empty label underflows [n - 1] and panics;
    - [c = b'Z'] appends ["A"];
    - an ASCII [c] (last character below U+0080) gives the prefix followed by
      [(c + 1) as char];
    - a non-ASCII last character ends in a UTF-8 continuation byte, so
      [&label[..n - 1]] cuts inside it and panics. *)
Definition next_label (label : option string) : option string :=
  match label with
  | None => Some "_A"
  | Some l =>
      match split_last l with
      | None => None
      | Some (prefix, c) =>
          if Ascii.eqb c "Z" then Some (l +++ "A")
          else if code c <? 128
               then Some (prefix +++ String (ascii_of_nat (S (code c))) EmptyString)
               else None
      end
  end.

(** ** Comments: [strip_start_comment], [strip_end_comment],
    [strip_line_comments], [strip_comments]

    The three comment functions are mutually recursive on a strictly shorter
    tail.  [strip_start_comment] and [strip_end_comment] take the recursive
    call [rec] as a parameter, and [strip_line_comments_fuel] ties the knot
    with a fuel argument that exceeds the length of the line.  The depth is
    a [u32]; [depth + 1] would need 2^32 nested openings, so it is a [nat]. *)

Definition strip_start_comment (rec : string -> nat -> string * nat)
    (s : string) (depth i : nat) : string * nat :=
  let front := if 0 <? depth then EmptyString else slice_to i s in
  let tail := slice_from (i + 2) s in
  let (rec_str, rec_depth) := rec tail (S depth) in
  (front +++ rec_str, rec_depth).

Definition strip_end_comment (rec : string -> nat -> string * nat)
    (s : string) (depth j : nat) : string * nat :=
  let tail := slice_from (j + 2) s in
  if 0 <? depth then rec tail (depth - 1)
  else
    let front := slice_to (j + 2) s in
    let (rec_str, rec_depth) := rec tail 0 in
    (front +++ rec_str, rec_depth).

Fixpoint strip_line_comments_fuel (fuel : nat) (s : string) (depth : nat)
    : string * nat :=
  match fuel with
  | O => (s, depth) (* not reached: the fuel exceeds the length of [s] *)
  | S f =>
      let rec := strip_line_comments_fuel f in
      match find_str "/*" s, find_str "*/" s with
      | Some i, Some j =>
          if i <? j then strip_start_comment rec s depth i
          else strip_end_comment rec s depth j
      | Some i, None => strip_start_comment rec s depth i
      | None, Some j => strip_end_comment rec s depth j
      | None, None => ((if 0 <? depth then EmptyString else s), depth)
      end
  end.

Definition strip_line_comments (s : string) (depth : nat) : string * nat :=
  strip_line_comments_fuel (S (String.length s)) s depth.

Fixpoint strip_comments_from (comment_depth : nat) (lines : list string)
    : list string :=
  match lines with
  | [] => []
  | line :: rest =>
      let (stripped, d) := strip_line_comments line comment_depth in
      stripped :: strip_comments_from d rest
  end.

Definition strip_comments (lines : list string) : list string :=
  strip_comments_from 0 lines.

(** ** Whitespace: [condense_line_whitespace], [condense_whitespace] *)

(** [str::trim_start]. *)
Fixpoint trim_start (s : string) : string :=
  match s with
  | EmptyString => EmptyString
  | String c t => if is_whitespace c then trim_start t else s
  end.

(** [str::trim_end]. *)
Fixpoint trim_end (s : string) : string :=
  match s with
  | EmptyString => EmptyString
  | String c t =>
      match trim_end t with
      | EmptyString => if is_whitespace c then EmptyString else String c EmptyString
      | t' => String c t'
      end
  end.

(** [str::trim]. *)
Definition trim (s : string) : string := trim_end (trim_start s).

(** The word that starts [s] (up to the first whitespace) and the words of
    the rest. *)
Fixpoint split_ws_aux (s : string) : string * list string :=
  match s with
  | EmptyString => (EmptyString, [])
  | String c t =>
      let (w, ws) := split_ws_aux t in
      if is_whitespace c
      then (EmptyString, match w with EmptyString => ws | _ => w :: ws end)
      else (String c w, ws)
  end.

(** [str::split_whitespace]: the maximal non-empty runs of non-whitespace. *)
Definition split_whitespace (s : string) : list string :=
  let (w, ws) := split_ws_aux s in
  match w with EmptyString => ws | _ => w :: ws end.

(** [condense_line_whitespace]: the words of the trimmed line, the first as
    it is and every later one preceded by one space. *)
Definition condense_line_whitespace (s : string) : string :=
  join " " (split_whitespace (trim s)).

Definition is_empty (s : string) : bool :=
  match s with EmptyString => true | _ => false end.

Definition condense_whitespace (lines : list string) : list string :=
  filter (fun line => negb (is_empty line)) (map condense_line_whitespace lines).

(** Sequencing of fallible steps: a panic ([None]) stops the computation. *)
Local Notation "'let*' x := m 'in' f" :=
  (match m with Some x => f | None => None end)
  (at level 200, x pattern, m at level 100, f at level 200).

(** ** Macros: [expand_line], [insert_macros] *)

(** [str::parse::<f64>] accepts exactly the strings of the grammar
    [Sign? ('inf' | 'infinity' | 'nan' | Number)] (case-insensitive words),
    [Number ::= (Digit+ | Digit+ '.' Digit* | Digit* '.' Digit+) Exp?],
    [Exp ::= ('e' | 'E') Sign? Digit+].  The model keeps the accepted text
    as the radius; the generators receive it as is. *)
Fixpoint digit_run (s : string) : nat * string :=
  match s with
  | String c t => if is_digit c then let (n, r) := digit_run t in (S n, r) else (0, s)
  | EmptyString => (0, EmptyString)
  end.

Definition strip_sign (s : string) : string :=
  match s with
  | String "+"%char t | String "-"%char t => t
  | _ => s
  end.

Definition exponent_ok (s : string) : bool :=
  match s with
  | EmptyString => true
  | String e t =>
      (Ascii.eqb e "e" || Ascii.eqb e "E") &&
      (let (n, r) := digit_run (strip_sign t) in (0 <? n) && is_empty r)
  end.

Definition float_literal_ok (s : string) : bool :=
  let body := strip_sign s in
  eq_ignore_ascii_case body "inf" || eq_ignore_ascii_case body "infinity"
  || eq_ignore_ascii_case body "nan"
  || (let (n1, r1) := digit_run body in
      match r1 with
      | String "."%char t =>
          let (n2, r2) := digit_run t in (0 <? n1 + n2) && exponent_ok r2
      | _ => (0 <? n1) && exponent_ok r1
      end).

Definition parse_f64 (s : string) : option string :=
  if float_literal_ok s then Some s else None.

Definition mem_str (x : string) (l : list string) : bool :=
  existsb (String.eqb x) l.

(** The directives of the parenthesised form, [#NAME(radius,angle)]. *)
Definition paren_registry : list string :=
  [ "#CIRCLE_LABELS"; "#CIRCLE_POSITION_P1"; "#CIRCLE_POSITION_P2";
    "#SQUARE_LABELS"; "#SQUARE_POSITION_P1"; "#SQUARE_POSITION_P2";
    "#MIGRA_LABELS"; "#MIGRA_POSITION_P1"; "#MIGRA_POSITION_P2" ].

(** The directives that make up a whole line. *)
Definition plain_registry : list string :=
  [ "#POSITION_LABELS"; "#POSITION_P1"; "#POSITION_P2"; "#SQUARE_AVOID_CLIFFS";
    "#ROCKGEN"; "#MKCONSTS"; "#SETPHATTR"; "#SETPHATTR4SEASONS"; "#TCCENTER";
    "#TCBOXES"; "#TCMULTIBOXES"; "#VISION"; "#TC9VILS"; "#TC9VILSZEWALL";
    "#TCMULTI9VILS"; "#HOUSEGAP3"; "#MULTIHOUSES"; "#HUTGAP3";
    "#STRAGGLER9VILS"; "#STRAGGLER9VILSSOCOTRA"; "#MULTISTRAGGLER9VILS";
    "#OBJECTS9VILS"; "#OBJECTS9VILSZEWALL"; "#ARENACIRCLES2V2"; "#DIRLABELS";
    "#SNAKELANDS"; "#SNAKEBORDERS"; "#ARENALANDS"; "#FOURSEASONSLANDS";
    "#FOURSEASONSLAKES"; "#ARENA_CIRCLE_GAPS"; "#ARENA_PLAYERS_GAPS";
    "#BFLANDS" ].

Section Pipeline.

(** The line generators of [circlegen], [landgen] and [actorgen], selected by
    directive name: [paren_macro name radius angle] is the expansion of a
    parenthesised directive of [paren_registry] (the [#..._P1] ones ignore
    the angle), [plain_macro name] that of a directive of [plain_registry].
    The claims hold for any generators, so they are left abstract. *)
Variable paren_macro : string -> string -> N -> list string.
Variable plain_macro : string -> list string.

(** The directive of [registry] that the upper-cased text [u] equals: the
    arm of the code's [match] that is taken. *)
Definition find_registry (u : ustr) (registry : list string) : option string :=
  find (fun name => ueqb u (codes name)) registry.

(** [expand_line].  Both arguments are parsed (with [unwrap]) before the
    directive name is matched.  [upper[..i]] cuts the upper-cased line at
    the byte offset [i] of ['('] in [line]: every character of
    U+0000..U+00FF takes as many UTF-8 bytes as its upper-case form
    (U+00DF and ["SS"] two each), so it is the upper-cased [line[..i]]. *)
Definition expand_line (line : string) : option (list string) :=
  match find_char "(" line with
  | Some i =>
      match find_char "," line with
      | None => Some [line]
      | Some j =>
          match find_char ")" line with
          | None => Some [line]
          | Some k =>
              let* rtext := slice (i + 1) j line in
              let* radius := parse_f64 rtext in
              let* atext := slice (j + 1) k line in
              let* angle := parse_u32 atext in
              match find_registry (to_uppercase (slice_to i line)) paren_registry with
              | Some name => Some (paren_macro name radius angle)
              | None => Some [line]
              end
          end
      end
  | None =>
      match find_registry (to_uppercase line) plain_registry with
      | Some name => Some (plain_macro name)
      | None => Some [line]
      end
  end.

Fixpoint insert_macros (lines : list string) : option (list string) :=
  match lines with
  | [] => Some []
  | line :: rest =>
      let* out := expand_line line in
      let* out' := insert_macros rest in
      Some (out ++ out')
  end.

End Pipeline.

(** ** Repeat blocks: [RepeatLines], [parse_repeat_count], [repeat_lines] *)

Record RepeatLines := { count : N; rl_lines : list string }.

Definition RepeatLines_new (c : N) : RepeatLines := {| count := c; rl_lines := [] |}.

Definition push_line (r : RepeatLines) (line : string) : RepeatLines :=
  {| count := count r; rl_lines := rl_lines r ++ [line] |}.

Definition newline : ascii := "010"%char.
Definition nl : string := String newline EmptyString.

Definition get_text (r : RepeatLines) : string :=
  if (count r =? 0)%N then EmptyString
  else
    let joined := join nl (rl_lines r) in
    let repeated := repeat_str (nl +++ joined) (N.to_nat (count r) - 1) in
    joined +++ repeated.

Definition parse_repeat_count (repeat_line : string) : option N :=
  let* i := find_char "(" repeat_line in
  let* j := rfind_char ")" repeat_line in
  let* s := slice (i + 1) j repeat_line in
  parse_usize s.

(** The loop state: the stack [repeats], its top at the head (the code's
    [Vec] has it at the end), and [output]. *)
Definition RepeatState : Type := list RepeatLines * list string.

(** [match repeats.last_mut() { Some(prev) => prev.push_line(..),
    None => output.push(..) }]. *)
Definition push_repeat_or_output (st : RepeatState) (text : string) : RepeatState :=
  let (repeats, output) := st in
  match repeats with
  | prev :: rest => (push_line prev text :: rest, output)
  | [] => ([], output ++ [text])
  end.

Definition repeat_step (st : RepeatState) (line : string) : option RepeatState :=
  let (repeats, output) := st in
  if ustarts_with "#REPEAT(" (to_uppercase line) then
    let* c := parse_repeat_count line in
    Some (RepeatLines_new c :: repeats, output)
  else if eq_ignore_ascii_case line "#END_REPEAT" then
    match repeats with
    | [] => None (* "Unexpected end repeat." *)
    | last :: rest =>
        Some (fold_left push_repeat_or_output (split_char newline (get_text last))
                (rest, output))
    end
  else Some (push_repeat_or_output st line).

Fixpoint repeat_loop (st : RepeatState) (lines : list string) : option RepeatState :=
  match lines with
  | [] => Some st
  | line :: rest => let* st' := repeat_step st line in repeat_loop st' rest
  end.

Definition repeat_lines (lines : list string) : option (list string) :=
  let* st := repeat_loop ([], []) lines in
  match fst st with
  | [] => Some (snd st)
  | _ => None (* "Repeats is nonempty." *)
  end.

(** ** Per-player objects: [assign_objects] *)

Record ObjectState := {
  output : list string;
  object : list string;   (* the [VecDeque], front first *)
  every_player : bool;
  num_players : N }.

Definition assign_step (st : ObjectState) (line : string) : option ObjectState :=
  match object st with
  | [] =>
      if eq_ignore_ascii_case line "#SET_PLACE_FOR_EVERY_PLAYER" then None
      else if starts_with "create_object" line
      then Some {| output := output st; object := [line];
                   every_player := every_player st; num_players := num_players st |}
      else Some {| output := output st ++ [line]; object := [];
                   every_player := every_player st; num_players := num_players st |}
  | _ =>
      if String.eqb line "}" then
        let out :=
          if every_player st then
            output st ++
              flat_map (fun land_id =>
                          object st ++
                            ["place_on_specific_land_id " +++ string_of_N (N.of_nat land_id);
                             "}"])
                (seq 1 (N.to_nat (num_players st)))
          else output st ++ object st ++ ["}"] in
        Some {| output := out; object := []; every_player := false;
                num_players := num_players st |}
      else if String.eqb line "#SET_PLACE_FOR_EVERY_PLAYER" then
        Some {| output := output st; object := object st;
                every_player := true; num_players := 2 |}
      else if String.eqb line "#PLACE8" then
        Some {| output := output st; object := object st;
                every_player := true; num_players := 8 |}
      else
        Some {| output := output st; object := object st ++ [line];
                every_player := every_player st; num_players := num_players st |}
  end.

Fixpoint assign_loop (st : ObjectState) (lines : list string) : option ObjectState :=
  match lines with
  | [] => Some st
  | line :: rest => let* st' := assign_step st line in assign_loop st' rest
  end.

Definition assign_objects (lines : list string) : option (list string) :=
  let* st := assign_loop {| output := []; object := []; every_player := false;
                            num_players := 2 |} lines in
  match object st with
  | [] => Some (output st)
  | _ => None (* "Object not closed, missing `}`." *)
  end.

(** ** Random values: [prob_definitions], [prob_conditional],
    [extract_random_line], [extract_rnd]

    Integer arithmetic on [u32] is checked as in a debug build: an overflow
    panics.  Memory exhaustion for huge ranges is not modelled. *)

Definition u32_max : N := 4294967295.

Definition prob_definitions (label : string) (min max : N) : option string :=
  if negb (min <? max)%N then None (* "Requires {min} < {max}." *)
  else if (u32_max <? max + 1)%N then None
  else
    let length := (max + 1 - min)%N in
    let* percents := probs 100 length in
    let defs := map (fun kp => "percent_chance " +++ string_of_N (snd kp) +++
                               " #define " +++ label +++ "_" +++ string_of_N (N.of_nat (fst kp)))
                    (combine (seq 0 (List.length percents)) percents) in
    Some (join nl (["start_random"] ++ defs ++ ["end_random"])).

Definition prob_conditional (label instruction : string) (min max : N) : option string :=
  if (u32_max <? max + 3)%N then None (* [max + 3 - min] overflows *)
  else if (max + 3 <? min)%N then None
  else
    let vs := map (fun d => min + N.of_nat d)%N (seq 0 (N.to_nat (max + 1 - min))) in
    let branch (k : nat) (v : N) :=
      (if (k =? 0) then "if" else "elseif") +++ " " +++ label +++ "_" +++
        string_of_N (N.of_nat k) +++ nl +++ instruction +++ " " +++ string_of_N v in
    let lines := map (fun kv => branch (fst kv) (snd kv)) (combine (seq 0 (List.length vs)) vs) in
    Some (join nl (lines ++ ["endif"])).

(** [extract_random_line]: [(instruction, min, max)]. *)
Definition extract_random_line (line : string) : option (string * N * N) :=
  let* h := find_char " " line in
  let* i := find_char "(" line in
  let* j := find_char "," line in
  let* k := find_char ")" line in
  let instruction := slice_to h line in
  let* mintext := slice (i + 1) j line in
  let* min := parse_u32 mintext in
  let* maxtext := slice (j + 1) k line in
  let* max := parse_u32 maxtext in
  Some (instruction, min, max).

Record RndState := {
  preamble : list string;
  body : list string;
  label : string;
  finished_land : bool }.

Definition rnd_step (st : RndState) (line : string) : option RndState :=
  if eq_ignore_ascii_case line "#EXTRACT_RND" then Some st
  else if negb (finished_land st) then
    Some {| preamble := preamble st; body := body st ++ [line]; label := label st;
            finished_land := contains "ELEVATION_GENERATION" line |}
  else if negb (contains "rnd" line) then
    Some {| preamble := preamble st; body := body st ++ [line]; label := label st;
            finished_land := true |}
  else
    let* parsed := extract_random_line line in
    let '(instruction, min, max) := parsed in
    let* defs := prob_definitions (label st) min max in
    let* cond := prob_conditional (label st) instruction min max in
    let* next := next_label (Some (label st)) in
    Some {| preamble := preamble st ++ [defs]; body := body st ++ [cond];
            label := next; finished_land := true |}.

Fixpoint rnd_loop (st : RndState) (lines : list string) : option RndState :=
  match lines with
  | [] => Some st
  | line :: rest => let* st' := rnd_step st line in rnd_loop st' rest
  end.

Definition extract_rnd (lines : list string) : option (list string) :=
  if forallb (fun line => negb (eq_ignore_ascii_case line "#EXTRACT_RND")) lines
  then Some lines
  else
    let* first := next_label None in
    let* st := rnd_loop {| preamble := []; body := []; label := first;
                           finished_land := false |} lines in
    Some (preamble st ++ body st).

(** ** Actor areas: [substitute_actor_area_names]

    The [HashMap] is an association list; only [contains_key], [insert] of a
    fresh key and [get] are used, so the order of its entries is
    immaterial. *)

Fixpoint map_get (m : list (string * N)) (k : string) : option N :=
  match m with
  | [] => None
  | (k', v) :: rest => if String.eqb k k' then Some v else map_get rest k
  end.

Definition contains_key (m : list (string * N)) (k : string) : bool :=
  match map_get m k with Some _ => true | None => false end.

(** The name a line declares in the first loop: [Some None] for a line that
    declares nothing, [None] for a panic. *)
Definition declared_name (line : string) : option (option string) :=
  if negb (starts_with "actor_area " line) && negb (starts_with "create_actor_area " line)
  then Some None
  else if starts_with "actor_area " line then
    let* i := find_char " " line in
    Some (Some (slice_from (i + 1) line))
  else
    let* j := rfind_char " " line in
    let* i := rfind_char " " (slice_to j line) in
    let* name := slice (i + 1) j line in
    Some (Some name).

(** The first loop: [next_id] starts at 20000. *)
Fixpoint assign_area_ids (next_id : N) (actor_areas : list (string * N))
    (lines : list string) : option (list (string * N)) :=
  match lines with
  | [] => Some actor_areas
  | line :: rest =>
      let* d := declared_name line in
      match d with
      | None => assign_area_ids next_id actor_areas rest
      | Some name =>
          if contains_key actor_areas name
          then assign_area_ids next_id actor_areas rest
          else assign_area_ids (next_id + 1)%N ((name, next_id) :: actor_areas) rest
      end
  end.

Definition base_area_id : N := 20000.

(** The second loop, on one line. *)
Definition substitute_line (actor_areas : list (string * N)) (line : string)
    : option string :=
  match find_char " " line with
  | None => Some line
  | Some i =>
      let command := slice_to i line in
      if mem_str command ["actor_area"; "avoid_actor_area"; "actor_area_to_place_in"] then
        let name := slice_from (i + 1) line in
        match map_get actor_areas name with
        | Some id => Some (command +++ " " +++ string_of_N id)
        | None => Some line
        end
      else if String.eqb command "create_actor_area" then
        let* k := rfind_char " " line in
        let* j := rfind_char " " (slice_to k line) in
        let* name := slice (j + 1) k line in
        match map_get actor_areas name with
        | Some id => Some (slice_to j line +++ " " +++ string_of_N id +++ slice_from k line)
        | None => Some line
        end
      else Some line
  end.

Fixpoint substitute_lines (actor_areas : list (string * N)) (lines : list string)
    : option (list string) :=
  match lines with
  | [] => Some []
  | line :: rest =>
      let* l := substitute_line actor_areas line in
      let* ls := substitute_lines actor_areas rest in
      Some (l :: ls)
  end.

Definition substitute_actor_area_names (lines : list string) : option (list string) :=
  let* actor_areas := assign_area_ids base_area_id [] lines in
  substitute_lines actor_areas lines.

(** ** The whole script: [collect_header_comment], [write_until_break],
    [process_script] *)

Fixpoint collect_header_from (header : list string) (lines : list string)
    : option (list string * list string) :=
  match lines with
  | [] => None (* "Header comment never ends." *)
  | line :: rest =>
      if ueqb (to_uppercase (trim line)) (codes "#HEADER_END") then Some (header, rest)
      else collect_header_from (header ++ [line]) rest
  end.

Definition collect_header_comment (lines : list string)
    : option (list string * list string) :=
  match lines with
  | [] => Some ([], [])
  | first :: rest =>
      if negb (ueqb (to_uppercase (trim first)) (codes "#HEADER_START"))
      then Some ([], lines)
      else collect_header_from [] rest
  end.

(** The text written: the lines before the first one containing [#BREAK]
    (in any case), separated by single newlines. *)
Fixpoint lines_until_break (lines : list string) : list string :=
  match lines with
  | [] => []
  | line :: rest =>
      if ucontains "#BREAK" (to_uppercase line) then []
      else line :: lines_until_break rest
  end.

Definition write_until_break (lines : list string) : string :=
  join nl (lines_until_break lines).

(** The passes after the header, in the order of [process_script]. *)
Definition process_body (paren_macro : string -> string -> N -> list string)
    (plain_macro : string -> list string) (lines : list string)
    : option (list string) :=
  let lines := strip_comments lines in
  let lines := condense_whitespace lines in
  let* lines := insert_macros paren_macro plain_macro lines in
  let* lines := repeat_lines lines in
  let* lines := assign_objects lines in
  let* lines := extract_rnd lines in
  substitute_actor_area_names lines.

(** [process_script] on the lines of the source file; the result is the text
    written to [dest]. *)
Definition process_script (paren_macro : string -> string -> N -> list string)
    (plain_macro : string -> list string) (lines : list string) : option string :=
  let* split := collect_header_comment lines in
  let '(header, lines) := split in
  let* lines := process_body paren_macro plain_macro lines in
  Some (write_until_break (header ++ lines)).

(** ** [landgen]: player slots and their labels *)

Definition NUM_SLOTS : nat := 20.
Definition NUM_P2_POSITIONS : nat := 7.
Definition P2_POS_OFFSET : nat := 7.

(** A [Slot] is its [usize]. *)
Definition check_slot (s : nat) : bool := s <? NUM_SLOTS.

(** [opponent_probability]; the [debug_assert!] on the two slots panics in a
    debug build. *)
Definition opponent_probability (p1_slot p2_slot : nat) : option N :=
  if check_slot p1_slot && check_slot p2_slot then
    let min_slot := Nat.min p1_slot p2_slot in
    let max_slot := Nat.max p1_slot p2_slot in
    let d := (max_slot - min_slot) mod NUM_SLOTS in
    Some (if (d =? 7) || (d =? 13) then 10%N
          else if (d =? 8) || (d =? 9) || (d =? 10) || (d =? 11) || (d =? 12) then 16%N
          else 0%N)
  else None.

(** [define_labels]. *)
Definition define_labels : list string :=
  let p1_labels := map (fun k => "percent_chance 5 #define P1_SLOT_" +++ string_of_N (N.of_nat k))
                       (seq 0 NUM_SLOTS) in
  let p2_labels := [ "percent_chance 10 #define P2_POS_0";
                     "percent_chance 16 #define P2_POS_1";
                     "percent_chance 16 #define P2_POS_2";
                     "percent_chance 16 #define P2_POS_3";
                     "percent_chance 16 #define P2_POS_4";
                     "percent_chance 16 #define P2_POS_5";
                     "percent_chance 10 #define P2_POS_6" ] in
  ["start_random"] ++ p1_labels ++ ["end_random"; "start_random"] ++ p2_labels ++
    ["end_random"].

(** The slot of P2's [j]-th position for P1 in slot [i], as [p2_position]
    computes it: [Slot((i + P2_POS_OFFSET + j) % NUM_SLOTS)]. *)
Definition p2_slot (i j : nat) : nat := (i + P2_POS_OFFSET + j) mod NUM_SLOTS.

(** ** [circlegen::renormalize_probabilities]

    The vector is a [list N] of [u32]s, changed in place; the result is the
    vector afterwards. *)

(** [probs.iter().fold(0, |a, b| a + b)] on [u32]: an overflow panics. *)
Fixpoint u32_sum_from (acc : N) (l : list N) : option N :=
  match l with
  | [] => Some acc
  | x :: rest => if (u32_max <? acc + x)%N then None else u32_sum_from (acc + x)%N rest
  end.

(** [probs[i] = v]: panics out of range. *)
Fixpoint set_nth (l : list N) (i : nat) (v : N) : option (list N) :=
  match l, i with
  | [], _ => None
  | _ :: rest, O => Some (v :: rest)
  | x :: rest, S i' => let* rest' := set_nth rest i' v in Some (x :: rest')
  end.

(** [while *probs.get(i).unwrap() == 0 { i += 1 }] from [i = 0]: the first
    non-zero index; running off the end panics. *)
Fixpoint first_nonzero (l : list N) : option nat :=
  match l with
  | [] => None
  | x :: rest => if (x =? 0)%N then option_map S (first_nonzero rest) else Some 0
  end.

(** [let mut j = probs.len() - 1; while *probs.get(j).unwrap() == 0
    { j -= 1 }]: the last non-zero index; an empty vector or one of zeros
    underflows [j] and panics. *)
Fixpoint last_nonzero (l : list N) : option nat :=
  match l with
  | [] => None
  | x :: rest =>
      match last_nonzero rest with
      | Some k => Some (S k)
      | None => if (x =? 0)%N then None else Some 0
      end
  end.

(** The [while total != 100] loop; it runs exactly [total - 100] times, the
    fuel [k].  [x - 1] on [x = 0] and [j -= 1] on [j = 0] panic. *)
Fixpoint renormalize_loop (k : nat) (probs : list N) (i j : nat) : option (list N) :=
  match k with
  | O => Some probs
  | S k' =>
      let* x := nth_error probs i in
      let* y := nth_error probs j in
      if (y <=? x)%N then
        if (x =? 0)%N then None
        else
          let* probs' := set_nth probs i (x - 1)%N in
          renormalize_loop k' probs' (if (x =? 1)%N then S i else i) j
      else
        let* probs' := set_nth probs j (y - 1)%N in
        if (y =? 1)%N then
          (if j =? 0 then None else renormalize_loop k' probs' i (j - 1))
        else renormalize_loop k' probs' i j
  end.

Definition renormalize_probabilities (probs : list N) (left right : nat)
    : option (list N) :=
  if negb (left <=? right) then None (* debug_assert *)
  else
    let* total := u32_sum_from 0 probs in
    if (total <? 100)%N then
      let mid := (left + right) / 2 in
      let* v := nth_error probs mid in
      set_nth probs mid (v + (100 - total))%N
    else if (100 <? total)%N then
      let* i := first_nonzero probs in
      let* j := last_nonzero probs in
      renormalize_loop (N.to_nat (total - 100)) probs i j
    else Some probs.

(** ** Observations used by the properties *)

(** The names the first loop of [substitute_actor_area_names] reads, in
    order ([None] if reading one panics). *)
Fixpoint declared_names (lines : list string) : option (list string) :=
  match lines with
  | [] => Some []
  | line :: rest =>
      let* d := declared_name line in
      let* ns := declared_names rest in
      match d with None => Some ns | Some n => Some (n :: ns) end
  end.

(** The first loop, on the declared names alone. *)
Fixpoint assign_names (next_id : N) (actor_areas : list (string * N))
    (names : list string) : list (string * N) :=
  match names with
  | [] => actor_areas
  | name :: rest =>
      if contains_key actor_areas name then assign_names next_id actor_areas rest
      else assign_names (next_id + 1)%N ((name, next_id) :: actor_areas) rest
  end.

(** The first [k] labels of [next_label] starting from [&None]. *)
Fixpoint label_run_from (prev : option string) (k : nat) : option (list string) :=
  match k with
  | O => Some []
  | S k' =>
      let* l := next_label prev in
      let* ls := label_run_from (Some l) k' in
      Some (l :: ls)
  end.

Fixpoint nodupb (l : list string) : bool :=
  match l with
  | [] => true
  | x :: r => negb (mem_str x r) && nodupb r
  end.

(** A line without whitespace characters. *)
Fixpoint no_whitespace (s : string) : bool :=
  match s with
  | EmptyString => true
  | String c t => negb (is_whitespace c) && no_whitespace t
  end.

Fixpoint all_whitespace (s : string) : bool :=
  match s with
  | EmptyString => true
  | String c t => is_whitespace c && all_whitespace t
  end.

(** A line of the form [instruction rnd(min,max)]: a space,
    ['('], [','] and [')'] present, and the texts between the first ['('] and
    the first [','] and between the first [','] and the first [')'] parse as
    integers with [min < max]. *)
Definition rnd_line_well_formed (line : string) : bool :=
  match find_char " " line, find_char "(" line, find_char "," line, find_char ")" line with
  | Some _, Some i, Some j, Some k =>
      match slice (i + 1) j line, slice (j + 1) k line with
      | Some a, Some b =>
          match parse_u32 a, parse_u32 b with
          | Some min, Some max => (min <? max)%N
          | _, _ => false
          end
      | _, _ => false
      end
  | _, _, _, _ => false
  end.

(** A line that the repeat expander copies into the open block. *)
Definition repeat_body_line (line : string) : bool :=
  negb (ustarts_with "#REPEAT(" (to_uppercase line)) &&
  negb (eq_ignore_ascii_case line "#END_REPEAT").

(** The two directives of [repeat_lines], tested in the code's order. *)
Definition is_repeat_open (line : string) : bool :=
  ustarts_with "#REPEAT(" (to_uppercase line).

Definition is_repeat_close (line : string) : bool :=
  negb (is_repeat_open line) && eq_ignore_ascii_case line "#END_REPEAT".

Definition count_lines (f : string -> bool) (lines : list string) : nat :=
  List.length (filter f lines).

(** The words of [split_ws_aux]'s result, as [split_whitespace] forms them. *)
Definition words_of (p : string * list string) : list string :=
  let (w, ws) := p in match w with EmptyString => ws | _ => w :: ws end.

(** A word as [split_whitespace] yields it: non-empty, no whitespace. *)
Definition good_word (w : string) : bool := negb (is_empty w) && no_whitespace w.

(** The end sentinel test of [collect_header_comment]. *)
Definition is_header_end (line : string) : bool :=
  ueqb (to_uppercase (trim line)) (codes "#HEADER_END").

(** The [n]-th label of a run of [next_label] from [&None]: an underscore,
    [n / 26] letters ['Z'], and the letter [n mod 26] of the alphabet. *)
Definition label_of_index (n : nat) : string :=
  "_" +++ repeat_str "Z" (n / 26) +++ String (ascii_of_nat (65 + n mod 26)) EmptyString.

Definition sum_N (l : list N) : N := fold_right N.add 0%N l.

(** A line that [assign_objects] keeps inside an open block as it is. *)
Definition object_body_line (line : string) : bool :=
  negb (String.eqb line "}") && negb (String.eqb line "#SET_PLACE_FOR_EVERY_PLAYER") &&
  negb (String.eqb line "#PLACE8").

(** A line that [assign_objects] copies straight to the output when no block
    is open. *)
Definition outside_object_line (line : string) : bool :=
  negb (eq_ignore_ascii_case line "#SET_PLACE_FOR_EVERY_PLAYER") &&
  negb (starts_with "create_object" line).

(** Checks over the slots, decided by evaluation in the proofs. *)
Definition opponent_row_ok (i : nat) : bool :=
  forallb (fun t =>
    match opponent_probability i t with
    | Some p => Bool.eqb (negb (p =? 0)%N)
                  (existsb (fun j => t =? p2_slot i j) (seq 0 NUM_P2_POSITIONS))
    | None => false
    end) (seq 0 NUM_SLOTS)
  && (sum_N (flat_map (fun t => match opponent_probability i t with
                                  | Some p => [p] | None => [] end) (seq 0 NUM_SLOTS)) =? 100)%N.

Definition p2_pos_ok (i : nat) : bool :=
  forallb (fun j =>
    match opponent_probability i (p2_slot i j) with
    | Some p => negb (p =? 0)%N &&
        String.eqb (nth (23 + j) define_labels "")
          ("percent_chance " +++ string_of_N p +++ " #define P2_POS_" +++ string_of_N (N.of_nat j))
    | None => false
    end) (seq 0 NUM_P2_POSITIONS).

(** [a] is [b] with some entries lowered. *)
Definition pointwise_le (a b : list N) : Prop :=
  List.length a = List.length b /\
  forall k x y, nth_error a k = Some x -> nth_error b k = Some y -> (x <= y)%N.

Definition upper_E_ok : bool :=
  forallb (fun k => let c := ascii_of_nat k in
    implb (Ascii.eqb (ascii_upper c) "E") (ueqb (upper_codes c) [69])) (seq 0 256).

(** The invariant of the ID table while the first loop of
    [substitute_actor_area_names] fills it. *)
Definition area_ids_inv (next : N) (m : list (string * N)) : Prop :=
  (forall k v, map_get m k = Some v -> (base_area_id <= v < next)%N) /\
  (forall a b v, map_get m a = Some v -> map_get m b = Some v -> a = b) /\
  next = (base_area_id + N.of_nat (List.length m))%N.

(** The lines [extract_rnd] keeps in place of the directive. *)
Definition not_rnd_directive (line : string) : bool :=
  negb (eq_ignore_ascii_case line "#EXTRACT_RND").

(** * Properties *)

Example next_label_ex1 : next_label (Some "_AZ") = Some "_AZA". Proof. reflexivity. Qed.
Example strip_ex : strip_line_comments "a /* b */ c */ d" 0 = ("a  c */ d", 0)
  /\ strip_line_comments "x /* /* y */" 0 = ("x ", 1).
Proof. split; reflexivity. Qed.
Example condense_ex : condense_line_whitespace "  a 	 b   c " = "a b c"
  /\ condense_line_whitespace "  " = "".
Proof. split; reflexivity. Qed.
Example expand_ex : forall pm pl,
  expand_line pm pl "foo bar" = Some ["foo bar"] /\ expand_line pm pl "x(1.5,90)" = Some ["x(1.5,90)"].
Proof. split; reflexivity. Qed.
Example expand_sharp_s_ex : forall pm pl,
  expand_line pm pl ("#straggler9vil" +++ String (ascii_of_nat 223) "ocotra") =
    Some (pl "#STRAGGLER9VILSSOCOTRA").
Proof. reflexivity. Qed.
Example repeat_ex : repeat_lines ["#REPEAT(3)"; "a"; "b"; "#END_REPEAT"] = Some ["a";"b";"a";"b";"a";"b"].
Proof. reflexivity. Qed.
Example assign_ex : assign_objects ["create_object X"; "#PLACE8"; "}"] <> None.
Proof. discriminate. Qed.
Example rnd_ex : extract_rnd ["#EXTRACT_RND"; "ELEVATION_GENERATION"; "x rnd(1,2)"] =
  Some ["start_random" +++ nl +++ "percent_chance 50 #define _A_0" +++ nl +++ "percent_chance 50 #define _A_1" +++ nl +++ "end_random";
        "ELEVATION_GENERATION"; "if _A_0" +++ nl +++ "x 1" +++ nl +++ "elseif _A_1" +++ nl +++ "x 2" +++ nl +++ "endif"].
Proof. reflexivity. Qed.
Example subst_ex : substitute_actor_area_names ["actor_area foo"; "create_actor_area 1 2 bar 3"; "avoid_actor_area bar"] =
  Some ["actor_area 20000"; "create_actor_area 1 2 20001 3"; "avoid_actor_area 20001"].
Proof. reflexivity. Qed.
Example proc_ex : process_script (fun _ _ _ => []) (fun _ => []) ["#header_start"; "h"; " #HEADER_END "; "a  /* c */ b"; "#break"; "z"] = Some ("h" +++ nl +++ "a b").
Proof. reflexivity. Qed.

(** ** Macro expansion *)

(** C1 (code bug): an unregistered directive [foo] written in the
    parenthesised form with arguments that are not numbers is not passed
    through: [expand_line] parses the radius before it looks at the name,
    and the failed [unwrap] panics. *)
Theorem expand_line_unregistered_bad_args_panics :
  forall (paren_macro : string -> string -> N -> list string)
         (plain_macro : string -> list string),
    find_registry (to_uppercase (slice_to 3 "foo(a,b)")) paren_registry = None /\
    expand_line paren_macro plain_macro "foo(a,b)" = None.
Proof. intros; split; reflexivity. Qed.

(** ** Repeat blocks *)

Lemma repeat_loop_body :
  forall body r rest out,
    forallb repeat_body_line body = true ->
    repeat_loop (r :: rest, out) body =
      Some ({| count := count r; rl_lines := rl_lines r ++ body |} :: rest, out).
Proof.
  intros body; induction body as [|line body IH]; intros r rest out Hb.
  - simpl. destruct r; simpl; rewrite app_nil_r; reflexivity.
  - simpl in Hb. apply andb_prop in Hb as [Hl Hb].
    unfold repeat_body_line in Hl. apply andb_prop in Hl as [H1 H2].
    apply negb_true_iff in H1. apply negb_true_iff in H2.
    simpl. rewrite H1, H2. simpl.
    rewrite (IH (push_line r line) rest out Hb). simpl.
    rewrite <- app_assoc. reflexivity.
Qed.

(** C2 (code bug): a [#REPEAT(0)] block does not expand to nothing.  Its
    text is the empty string, and splitting that at newlines gives one empty
    piece, so the block leaves one empty line, at top level and nested. *)
Theorem repeat_zero_leaves_empty_line :
  (forall body, forallb repeat_body_line body = true ->
     repeat_lines ("#REPEAT(0)" :: body ++ ["#END_REPEAT"]) = Some [""]) /\
  repeat_lines ["#REPEAT(2)"; "x"; "#REPEAT(0)"; "a"; "#END_REPEAT"; "#END_REPEAT"] =
    Some ["x"; ""; "x"; ""].
Proof.
  split; [|reflexivity].
  intros body Hb. unfold repeat_lines. simpl.
  assert (Hl : forall l1 l2 st,
             repeat_loop st (l1 ++ l2) =
             let* st' := repeat_loop st l1 in repeat_loop st' l2).
  { induction l1 as [|x l1 IH]; intros l2 st; simpl; [reflexivity|].
    destruct (repeat_step st x); [apply IH|reflexivity]. }
  rewrite Hl, (repeat_loop_body body (RepeatLines_new 0) [] [] Hb).
  reflexivity.
Qed.

Lemma repeat_zero_leaves_empty_line_witness :
  forallb repeat_body_line ["a"; "b"] = true /\
  repeat_lines ("#REPEAT(0)" :: ["a"; "b"] ++ ["#END_REPEAT"]) = Some [""].
Proof.
  split; [reflexivity|].
  apply (proj1 repeat_zero_leaves_empty_line). reflexivity.
Defined.

(** ** Per-player objects *)

(** C3 (code bug): outside an object block only
    [#SET_PLACE_FOR_EVERY_PLAYER] is refused; its sibling [#PLACE8] is copied
    to the output. *)
Theorem place8_outside_block_accepted :
  assign_objects ["#SET_PLACE_FOR_EVERY_PLAYER"] = None /\
  assign_objects ["#PLACE8"] = Some ["#PLACE8"].
Proof. split; reflexivity. Qed.

(** ** Weights *)

Lemma nth_repeat_app (a b : N) (r s i : nat) :
  nth i (repeat a r ++ repeat b s) 0%N =
    if i <? r then a else if i <? r + s then b else 0%N.
Proof.
  revert i. induction r as [|r IH]; intros i.
  - simpl. revert i. induction s as [|s IHs]; intros [|i]; simpl; auto.
  - destruct i as [|i]; simpl; [reflexivity|]. apply IH.
Qed.

Lemma sum_repeat (a : N) (k : nat) :
  fold_right N.add 0%N (repeat a k) = (N.of_nat k * a)%N.
Proof. induction k as [|k IH]; [reflexivity|]. cbn [repeat fold_right]. rewrite IH, Nat2N.inj_succ. nia. Qed.

Lemma sum_app (l1 l2 : list N) :
  fold_right N.add 0%N (l1 ++ l2) = (fold_right N.add 0%N l1 + fold_right N.add 0%N l2)%N.
Proof. induction l1 as [|x l1 IH]; simpl; [reflexivity|]. rewrite IH. lia. Qed.

(** C4: dividing 100 into [m] weights ([1 <= m <= 100]) gives [m] weights
    summing to 100, pairwise within 1 of each other, and the first
    [100 mod m] of them are one unit above the others, which are
    [100 / m]. *)
Theorem probs_100_weights :
  forall m : N, (1 <= m <= 100)%N ->
  exists ws, probs 100 m = Some ws /\
    List.length ws = N.to_nat m /\
    fold_right N.add 0%N ws = 100%N /\
    (forall i j : nat, i < N.to_nat m -> j < N.to_nat m ->
       (nth i ws 0 <= nth j ws 0 + 1)%N) /\
    (forall i k : nat, i < N.to_nat (100 mod m) -> N.to_nat (100 mod m) <= k < N.to_nat m ->
       (nth i ws 0 = nth k ws 0 + 1 /\ nth k ws 0 = 100 / m)%N).
Proof.
  intros m Hm. unfold probs.
  destruct (N.eqb_spec m 0) as [E|_]; [lia|].
  set (q := (100 / m)%N). set (r := (100 mod m)%N).
  assert (Hr : (r < m)%N) by (apply N.mod_lt; lia).
  assert (Hdiv : (100 = m * q + r)%N) by (apply N.div_mod; lia).
  assert (Hrn : N.to_nat r < N.to_nat m) by lia.
  eexists; split; [reflexivity|].
  split; [|split; [|split]].
  - rewrite length_app, !repeat_length. lia.
  - rewrite sum_app, !sum_repeat, Nat2N.inj_sub, !N2Nat.id. nia.
  - intros i j Hi Hj. rewrite !nth_repeat_app.
    destruct (Nat.ltb_spec i (N.to_nat r)), (Nat.ltb_spec j (N.to_nat r));
      destruct (Nat.ltb_spec i (N.to_nat r + (N.to_nat m - N.to_nat r)));
      destruct (Nat.ltb_spec j (N.to_nat r + (N.to_nat m - N.to_nat r))); lia.
  - intros i k Hi Hk. rewrite !nth_repeat_app.
    destruct (Nat.ltb_spec i (N.to_nat r)); destruct (Nat.ltb_spec k (N.to_nat r));
      destruct (Nat.ltb_spec k (N.to_nat r + (N.to_nat m - N.to_nat r)));
      try lia; split; reflexivity.
Qed.

Lemma probs_100_weights_witness :
  (1 <= 7 <= 100)%N /\
  exists ws, probs 100 7 = Some ws /\
    List.length ws = N.to_nat 7 /\
    fold_right N.add 0%N ws = 100%N /\
    (forall i j : nat, i < N.to_nat 7 -> j < N.to_nat 7 ->
       (nth i ws 0 <= nth j ws 0 + 1)%N) /\
    (forall i k : nat, i < N.to_nat (100 mod 7) -> N.to_nat (100 mod 7) <= k < N.to_nat 7 ->
       (nth i ws 0 = nth k ws 0 + 1 /\ nth k ws 0 = 100 / 7)%N).
Proof. split; [lia|]. apply (probs_100_weights 7). lia. Defined.

(** ** Actor areas *)

Lemma assign_area_ids_names :
  forall lines next_id actor_areas names,
    declared_names lines = Some names ->
    assign_area_ids next_id actor_areas lines = Some (assign_names next_id actor_areas names).
Proof.
  intros lines; induction lines as [|line rest IH]; intros next_id actor_areas names H.
  - simpl in H. inversion H. reflexivity.
  - simpl in H. simpl.
    destruct (declared_name line) as [d|]; [|discriminate].
    destruct (declared_names rest) as [ns|] eqn:E; [|discriminate].
    destruct d as [name|]; inversion H; subst; simpl.
    + destruct (contains_key actor_areas name); apply IH; reflexivity.
    + apply IH; reflexivity.
Qed.

(** C5: for a script declaring the actor-area names [foo], [bar], [foo] in
    this order, [foo] and [bar] get distinct IDs, both at least the base
    20000; [foo] keeps the ID of its first declaration (20000, not the 20002
    a re-declaration would take), and every line is then rewritten with this
    one table of IDs. *)
Theorem actor_area_foo_bar_foo :
  forall lines,
    declared_names lines = Some ["foo"; "bar"; "foo"] ->
    exists actor_areas a b,
      assign_area_ids base_area_id [] lines = Some actor_areas /\
      map_get actor_areas "foo" = Some a /\
      map_get actor_areas "bar" = Some b /\
      a <> b /\ (base_area_id <= a)%N /\ (base_area_id <= b)%N /\
      a = base_area_id /\
      substitute_actor_area_names lines = substitute_lines actor_areas lines.
Proof.
  intros lines H.
  pose proof (assign_area_ids_names lines base_area_id [] _ H) as E.
  simpl in E.
  exists [("bar", 20001%N); ("foo", 20000%N)], 20000%N, 20001%N.
  unfold substitute_actor_area_names. rewrite E.
  repeat split; try reflexivity; unfold base_area_id; lia.
Qed.

Lemma actor_area_foo_bar_foo_witness :
  declared_names ["actor_area foo"; "create_actor_area 10 10 bar 3"; "actor_area foo"] =
    Some ["foo"; "bar"; "foo"] /\
  exists actor_areas a b,
    assign_area_ids base_area_id []
      ["actor_area foo"; "create_actor_area 10 10 bar 3"; "actor_area foo"] = Some actor_areas /\
    map_get actor_areas "foo" = Some a /\
    map_get actor_areas "bar" = Some b /\
    a <> b /\ (base_area_id <= a)%N /\ (base_area_id <= b)%N /\
    a = base_area_id /\
    substitute_actor_area_names
      ["actor_area foo"; "create_actor_area 10 10 bar 3"; "actor_area foo"] =
    substitute_lines actor_areas
      ["actor_area foo"; "create_actor_area 10 10 bar 3"; "actor_area foo"].
Proof. split; [reflexivity|]. apply actor_area_foo_bar_foo. reflexivity. Defined.

(** ** Labels *)

Lemma append_assoc_str (a b c : string) : (a +++ b) +++ c = a +++ (b +++ c).
Proof. induction a as [|x a IH]; simpl; [reflexivity|]. rewrite IH. reflexivity. Qed.

Lemma split_last_snoc (p : string) (c : ascii) :
  split_last (p +++ String c EmptyString) = Some (p, c).
Proof.
  induction p as [|d p IH]; [reflexivity|].
  change (String d p +++ String c EmptyString) with (String d (p +++ String c EmptyString)).
  destruct p as [|e p']; [reflexivity|].
  change (String e p' +++ String c EmptyString) with (String e (p' +++ String c EmptyString)) in *.
  cbn [split_last]. cbn [split_last] in IH. rewrite IH. reflexivity.
Qed.

Lemma nodupb_NoDup (l : list string) : nodupb l = true -> NoDup l.
Proof.
  induction l as [|x r IH]; simpl; intros H; constructor.
  - apply andb_prop in H as [H _]. apply negb_true_iff in H.
    intros Hin. unfold mem_str in H.
    assert (existsb (String.eqb x) r = true) as C.
    { apply existsb_exists. exists x. split; [assumption|]. apply String.eqb_refl. }
    congruence.
  - apply andb_prop in H as [_ H]. apply IH, H.
Qed.

(** C6 (amended to labels whose last character is ASCII): from no label,
    ["_A"]; a label ending in an ASCII character other than ['Z'] gets that
    character replaced by the next one; a label ending in ['Z'] gets ['A']
    appended; a label ending in a non-ASCII character makes the code panic;
    and the first [k <= 26] labels generated from no label are pairwise
    distinct. *)
Theorem next_label_steps :
  next_label None = Some "_A" /\
  (forall p c, c <> "Z"%char -> code c < 128 ->
     next_label (Some (p +++ String c EmptyString)) =
       Some (p +++ String (ascii_of_nat (S (code c))) EmptyString)) /\
  (forall p, next_label (Some (p +++ "Z")) = Some (p +++ "ZA")) /\
  (forall p c, 128 <= code c -> next_label (Some (p +++ String c EmptyString)) = None) /\
  (forall k, k <= 26 ->
     exists ls, label_run_from None k = Some ls /\ List.length ls = k /\ NoDup ls).
Proof.
  split; [reflexivity|]. split; [|split; [|split]].
  - intros p c Hc Hlt. unfold next_label. rewrite split_last_snoc.
    destruct (Ascii.eqb_spec c "Z"); [contradiction|].
    apply Nat.ltb_lt in Hlt. rewrite Hlt. reflexivity.
  - intros p. unfold next_label. rewrite split_last_snoc. simpl.
    rewrite append_assoc_str. reflexivity.
  - intros p c Hge. unfold next_label. rewrite split_last_snoc.
    destruct (Ascii.eqb_spec c "Z") as [->|_]; [cbv in Hge; lia|].
    destruct (Nat.ltb_spec (code c) 128); [lia|reflexivity].
  - intros k Hk.
    do 27 (destruct k as [|k];
           [eexists; split; [reflexivity|]; split; [reflexivity|];
            apply nodupb_NoDup; vm_compute; reflexivity|]).
    lia.
Qed.

Lemma next_label_steps_witness :
  next_label (Some ("_" +++ String "Q" EmptyString)) =
    Some ("_" +++ String (ascii_of_nat (S (code "Q"))) EmptyString) /\
  next_label (Some ("_" +++ String (ascii_of_nat 233) EmptyString)) = None /\
  exists ls, label_run_from None 26 = Some ls /\ List.length ls = 26 /\ NoDup ls.
Proof.
  split; [|split].
  - apply (proj1 (proj2 next_label_steps)); [discriminate | vm_compute; lia].
  - apply (proj1 (proj2 (proj2 (proj2 next_label_steps)))). vm_compute; lia.
  - apply (proj2 (proj2 (proj2 (proj2 next_label_steps)))). lia.
Defined.

(** C6 as stated fails for a label whose last character is not ASCII: for
    ["_é"] the code cuts [&label[..n - 1]] inside the two bytes of ['é'] and
    panics instead of returning ["_ê"]. *)
Lemma next_label_non_ascii_panics :
  ascii_of_nat 233 <> "Z"%char /\
  next_label (Some ("_" +++ String (ascii_of_nat 233) EmptyString)) = None /\
  next_label (Some ("_" +++ String (ascii_of_nat 233) EmptyString)) <>
    Some ("_" +++ String (ascii_of_nat 234) EmptyString).
Proof. split; [discriminate|]. split; [reflexivity|discriminate]. Qed.

(** ** Comments *)

Lemma prefix_length (p s : string) :
  String.prefix p s = true -> String.length p <= String.length s.
Proof.
  revert s; induction p as [|c p IH]; intros [|d s] H; simpl in *; try lia; try discriminate.
  destruct (ascii_dec c d); [|discriminate]. apply IH in H. lia.
Qed.

Lemma find_str_bound (p s : string) (i : nat) :
  find_str p s = Some i -> i + String.length p <= String.length s.
Proof.
  revert i; induction s as [|c s IH]; intros i H; cbn [find_str] in H.
  - destruct (String.prefix p "") eqn:E; [|discriminate].
    inversion H; subst. apply prefix_length in E. simpl in *. lia.
  - destruct (String.prefix p (String c s)) eqn:E.
    + inversion H; subst. apply prefix_length in E. simpl in *. lia.
    + destruct (find_str p s) as [i'|]; [|discriminate].
      inversion H; subst. specialize (IH i' eq_refl). simpl. lia.
Qed.

Lemma substring_length_le (a n : nat) (s : string) :
  String.length (substring a n s) <= String.length s - a.
Proof.
  revert a n; induction s as [|c s IH]; intros [|a] [|n]; simpl; try lia.
  - specialize (IH 0 n). lia.
  - apply IH.
  - apply IH.
Qed.

Lemma strip_start_comment_ext rec1 rec2 s depth i :
  (forall d, rec1 (slice_from (i + 2) s) d = rec2 (slice_from (i + 2) s) d) ->
  strip_start_comment rec1 s depth i = strip_start_comment rec2 s depth i.
Proof. intros H. unfold strip_start_comment. rewrite H. reflexivity. Qed.

Lemma strip_end_comment_ext rec1 rec2 s depth j :
  (forall d, rec1 (slice_from (j + 2) s) d = rec2 (slice_from (j + 2) s) d) ->
  strip_end_comment rec1 s depth j = strip_end_comment rec2 s depth j.
Proof. intros H. unfold strip_end_comment. rewrite !H. reflexivity. Qed.

(** The tail after a delimiter is strictly shorter than the line. *)
Lemma delimiter_tail_shorter (p s : string) (i : nat) :
  String.length p = 2 -> find_str p s = Some i ->
  String.length (slice_from (i + 2) s) < String.length s.
Proof.
  intros Hp H. apply find_str_bound in H.
  pose proof (substring_length_le (i + 2) (String.length s - (i + 2)) s).
  unfold slice_from. lia.
Qed.

(** Any fuel above the length of the line gives the same result. *)
Lemma strip_line_comments_fuel_enough :
  forall f1 f2 s depth,
    String.length s < f1 -> String.length s < f2 ->
    strip_line_comments_fuel f1 s depth = strip_line_comments_fuel f2 s depth.
Proof.
  intros f1; induction f1 as [|f1 IH]; intros [|f2] s depth H1 H2; try lia.
  cbn [strip_line_comments_fuel].
  destruct (find_str "/*" s) as [i|] eqn:Ei; destruct (find_str "*/" s) as [j|] eqn:Ej;
    try (destruct (i <? j));
    first [ apply strip_start_comment_ext; intros d; apply IH;
            pose proof (delimiter_tail_shorter "/*" s i eq_refl Ei); lia
          | apply strip_end_comment_ext; intros d; apply IH;
            pose proof (delimiter_tail_shorter "*/" s j eq_refl Ej); lia
          | reflexivity ].
Qed.

(** C7: at depth 0, when the first ["*/"] of a line comes before any ["/*"],
    the stripper keeps the text up to and including that ["*/"] and goes on
    with the rest of the line at depth 0; the depth it returns is that of
    the rest (a [nat]: never negative, and no error is raised). *)
Theorem strip_unbalanced_close_literal :
  forall s j,
    find_str "*/" s = Some j ->
    (forall i, find_str "/*" s = Some i -> j < i) ->
    strip_line_comments s 0 =
      let (t, d) := strip_line_comments (slice_from (j + 2) s) 0 in
      (slice_to (j + 2) s +++ t, d).
Proof.
  intros s j Hj Hi.
  assert (Hrec : strip_line_comments_fuel (String.length s) (slice_from (j + 2) s) 0 =
                 strip_line_comments (slice_from (j + 2) s) 0).
  { unfold strip_line_comments. apply strip_line_comments_fuel_enough;
      pose proof (delimiter_tail_shorter "*/" s j eq_refl Hj); lia. }
  unfold strip_line_comments at 1. cbn [strip_line_comments_fuel].
  rewrite Hj.
  destruct (find_str "/*" s) as [i|] eqn:Ei.
  - specialize (Hi i eq_refl).
    destruct (Nat.ltb_spec i j); [lia|].
    unfold strip_end_comment. simpl. rewrite Hrec. reflexivity.
  - unfold strip_end_comment. simpl. rewrite Hrec. reflexivity.
Qed.

Lemma strip_unbalanced_close_literal_witness :
  strip_line_comments "a */ b /* c" 0 =
    let (t, d) := strip_line_comments (slice_from (2 + 2) "a */ b /* c") 0 in
    (slice_to (2 + 2) "a */ b /* c" +++ t, d).
Proof.
  apply (strip_unbalanced_close_literal "a */ b /* c" 2); [reflexivity|].
  intros i Hi. vm_compute in Hi. inversion Hi. lia.
Defined.

(** ** Whitespace *)

Lemma split_whitespace_words_of (s : string) :
  split_whitespace s = words_of (split_ws_aux s).
Proof. reflexivity. Qed.

Lemma split_ws_aux_space (c : ascii) (t : string) :
  is_whitespace c = true -> split_ws_aux (String c t) = (EmptyString, split_whitespace t).
Proof.
  intros H. simpl. unfold split_whitespace. destruct (split_ws_aux t). rewrite H. reflexivity.
Qed.

Lemma split_whitespace_trim_start (s : string) :
  split_whitespace (trim_start s) = split_whitespace s.
Proof.
  induction s as [|c t IH]; [reflexivity|]. simpl.
  destruct (is_whitespace c) eqn:E; [|reflexivity].
  rewrite IH, split_whitespace_words_of with (s := String c t),
    split_ws_aux_space by exact E.
  reflexivity.
Qed.

Lemma split_ws_aux_trim_end (s : string) :
  split_ws_aux (trim_end s) = split_ws_aux s.
Proof.
  induction s as [|c t IH]; [reflexivity|]. cbn [trim_end].
  destruct (trim_end t) as [|d t'] eqn:E.
  - cbn [split_ws_aux]. rewrite <- IH.
    destruct (is_whitespace c) eqn:Hc; simpl; rewrite ?Hc; reflexivity.
  - cbn [split_ws_aux]. rewrite <- IH. reflexivity.
Qed.

Lemma split_whitespace_trim (s : string) :
  split_whitespace (trim s) = split_whitespace s.
Proof.
  unfold trim. rewrite split_whitespace_words_of, split_ws_aux_trim_end,
    <- split_whitespace_words_of.
  apply split_whitespace_trim_start.
Qed.

Lemma split_ws_aux_good (s : string) :
  no_whitespace (fst (split_ws_aux s)) = true /\
  forallb good_word (snd (split_ws_aux s)) = true.
Proof.
  induction s as [|c t IH]; [split; reflexivity|]. simpl.
  destruct (split_ws_aux t) as [w ws]. simpl in IH. destruct IH as [Hw Hws].
  destruct (is_whitespace c) eqn:E; simpl.
  - split; [reflexivity|]. destruct w as [|d w']; [assumption|].
    cbn [forallb]. apply andb_true_intro. split; [|exact Hws].
    unfold good_word. rewrite Hw. reflexivity.
  - rewrite E, Hw. split; [reflexivity|assumption].
Qed.

Lemma split_whitespace_good (s : string) :
  forallb good_word (split_whitespace s) = true.
Proof.
  rewrite split_whitespace_words_of.
  destruct (split_ws_aux_good s) as [Hw Hws].
  destruct (split_ws_aux s) as [w ws]. simpl in *.
  destruct w as [|d w']; [assumption|].
  cbn [forallb]. apply andb_true_intro. split; [|exact Hws].
  unfold good_word. rewrite Hw. reflexivity.
Qed.

Lemma split_ws_aux_word (w r : string) :
  no_whitespace w = true ->
  split_ws_aux (w +++ r) = (w +++ fst (split_ws_aux r), snd (split_ws_aux r)).
Proof.
  induction w as [|c w IH]; intros H.
  - simpl. destruct (split_ws_aux r); reflexivity.
  - simpl in H. apply andb_prop in H as [Hc H]. apply negb_true_iff in Hc.
    simpl. rewrite IH by exact H. rewrite Hc. reflexivity.
Qed.

Lemma append_empty_r (s : string) : s +++ EmptyString = s.
Proof. induction s as [|c s IH]; simpl; [reflexivity|]. rewrite IH. reflexivity. Qed.

Lemma split_whitespace_join (ws : list string) :
  forallb good_word ws = true -> split_whitespace (join " " ws) = ws.
Proof.
  induction ws as [|w rest IH]; intros H; [reflexivity|].
  simpl in H. apply andb_prop in H as [Hw Hrest].
  unfold good_word in Hw. apply andb_prop in Hw as [Hne Hnw].
  destruct rest as [|w2 rest'].
  - cbn [join]. rewrite <- (append_empty_r w), split_whitespace_words_of,
      split_ws_aux_word by exact Hnw.
    simpl. rewrite append_empty_r. destruct w; [discriminate|reflexivity].
  - change (join " " (w :: w2 :: rest')) with (w +++ " " +++ join " " (w2 :: rest')).
    rewrite split_whitespace_words_of, split_ws_aux_word by exact Hnw.
    change (" " +++ join " " (w2 :: rest')) with (String " "%char (join " " (w2 :: rest'))).
    rewrite split_ws_aux_space by reflexivity. cbn [fst snd].
    rewrite append_empty_r, IH by exact Hrest.
    destruct w; [discriminate|reflexivity].
Qed.

Lemma split_whitespace_all_whitespace (s : string) :
  all_whitespace s = true -> split_whitespace s = [].
Proof.
  induction s as [|c t IH]; intros H; [reflexivity|].
  simpl in H. apply andb_prop in H as [Hc Ht].
  rewrite split_whitespace_words_of, split_ws_aux_space by exact Hc.
  simpl. apply IH, Ht.
Qed.

(** C8: condensing is idempotent, and an all-whitespace line condenses to
    the empty string. *)
Theorem condense_idempotent :
  (forall s, condense_line_whitespace (condense_line_whitespace s) =
             condense_line_whitespace s) /\
  (forall s, all_whitespace s = true -> condense_line_whitespace s = "").
Proof.
  split.
  - intros s. unfold condense_line_whitespace at 1 2.
    rewrite split_whitespace_trim, split_whitespace_join
      by (rewrite split_whitespace_trim; apply split_whitespace_good).
    reflexivity.
  - intros s H. unfold condense_line_whitespace.
    rewrite split_whitespace_trim, split_whitespace_all_whitespace by exact H.
    reflexivity.
Qed.

Lemma condense_idempotent_witness :
  all_whitespace (String "009"%char "  ") = true /\
  condense_line_whitespace (String "009"%char "  ") = "".
Proof. split; [reflexivity|]. apply (proj2 condense_idempotent). reflexivity. Defined.

(** ** Random-value extraction *)

Lemma rnd_loop_app (st : RndState) (l1 l2 : list string) :
  rnd_loop st (l1 ++ l2) = let* st' := rnd_loop st l1 in rnd_loop st' l2.
Proof.
  revert st; induction l1 as [|x l1 IH]; intros st; simpl; [reflexivity|].
  destruct (rnd_step st x); [apply IH|reflexivity].
Qed.

Lemma rnd_step_finished (st st' : RndState) (line : string) :
  rnd_step st line = Some st' -> finished_land st = true -> finished_land st' = true.
Proof.
  intros H F. unfold rnd_step in H. rewrite F in H. cbn [negb] in H.
  destruct (eq_ignore_ascii_case line "#EXTRACT_RND");
    [inversion H; subst; assumption|].
  destruct (contains "rnd" line); cbn [negb] in H; [|inversion H; reflexivity].
  destruct (extract_random_line line) as [[[ins mn] mx]|]; [|discriminate].
  destruct (prob_definitions (label st) mn mx); [|discriminate].
  destruct (prob_conditional (label st) ins mn mx); [|discriminate].
  destruct (next_label (Some (label st))); [|discriminate].
  inversion H. reflexivity.
Qed.

Lemma rnd_loop_finished (lines : list string) :
  forall st st', rnd_loop st lines = Some st' ->
    finished_land st = true -> finished_land st' = true.
Proof.
  induction lines as [|x rest IH]; intros st st' H F; simpl in H.
  - inversion H; subst; assumption.
  - destruct (rnd_step st x) as [s1|] eqn:E; [|discriminate].
    apply (IH s1); [assumption|]. apply (rnd_step_finished st s1 x E F).
Qed.

Lemma eq_ignore_ascii_case_length (a b : string) :
  eq_ignore_ascii_case a b = true -> String.length a = String.length b.
Proof.
  revert b; induction a as [|c a IH]; intros [|d b] H; simpl in *;
    try discriminate; [reflexivity|].
  apply andb_prop in H as [_ H]. rewrite (IH b H). reflexivity.
Qed.

Lemma contains_length (p s : string) :
  contains p s = true -> String.length p <= String.length s.
Proof.
  unfold contains. destruct (find_str p s) as [i|] eqn:E; [|discriminate].
  intros _. apply find_str_bound in E. lia.
Qed.

(** The directive line itself never marks the end of land generation. *)
Lemma extract_directive_not_elevation (line : string) :
  eq_ignore_ascii_case line "#EXTRACT_RND" = true ->
  contains "ELEVATION_GENERATION" line = false.
Proof.
  intros H. apply eq_ignore_ascii_case_length in H.
  destruct (contains "ELEVATION_GENERATION" line) eqn:E; [|reflexivity].
  apply contains_length in E. simpl in *. lia.
Qed.

Lemma rnd_loop_passes_elevation (pre : list string) :
  forall st st',
    existsb (contains "ELEVATION_GENERATION") pre = true ->
    rnd_loop st pre = Some st' -> finished_land st' = true.
Proof.
  induction pre as [|x rest IH]; intros st st' Hex H; [discriminate|].
  simpl in Hex, H.
  destruct (rnd_step st x) as [s1|] eqn:E; [|discriminate].
  destruct (existsb (contains "ELEVATION_GENERATION") rest) eqn:Er.
  - exact (IH s1 st' eq_refl H).
  - rewrite orb_false_r in Hex.
    apply (rnd_loop_finished rest s1); [assumption|].
    unfold rnd_step in E.
    destruct (eq_ignore_ascii_case x "#EXTRACT_RND") eqn:Ex.
    + rewrite extract_directive_not_elevation in Hex by exact Ex. discriminate.
    + destruct (finished_land st) eqn:F.
      * apply (rnd_step_finished st s1 x); [|exact F].
        unfold rnd_step. rewrite Ex, F. exact E.
      * simpl in E. inversion E. simpl. exact Hex.
Qed.

Lemma extract_random_line_well_formed (line ins : string) (mn mx : N) :
  extract_random_line line = Some (ins, mn, mx) ->
  rnd_line_well_formed line = (mn <? mx)%N.
Proof.
  unfold extract_random_line, rnd_line_well_formed.
  destruct (find_char " " line); [|discriminate].
  destruct (find_char "(" line); [|discriminate].
  destruct (find_char "," line); [|discriminate].
  destruct (find_char ")" line); [|discriminate].
  destruct (slice _ _ line) as [a|]; [|discriminate].
  destruct (parse_u32 a); [|discriminate].
  destruct (slice _ _ line) as [b|]; [|discriminate].
  destruct (parse_u32 b); [|discriminate].
  intros H. inversion H. reflexivity.
Qed.

Lemma rnd_step_malformed (st : RndState) (line : string) :
  finished_land st = true ->
  eq_ignore_ascii_case line "#EXTRACT_RND" = false ->
  contains "rnd" line = true ->
  rnd_line_well_formed line = false ->
  rnd_step st line = None.
Proof.
  intros F Hx Hr Hw. unfold rnd_step. rewrite F, Hx, Hr. simpl.
  destruct (extract_random_line line) as [[[ins mn] mx]|] eqn:E; [|reflexivity].
  apply extract_random_line_well_formed in E. rewrite E in Hw.
  unfold prob_definitions. rewrite Hw. reflexivity.
Qed.

Lemma forallb_negb_existsb (f : string -> bool) (l : list string) :
  forallb (fun x => negb (f x)) l = negb (existsb f l).
Proof.
  induction l as [|x l IH]; simpl; [reflexivity|]. rewrite IH.
  destruct (f x); reflexivity.
Qed.

(** C9 as stated fails on the extraction directive itself: a line
    [#extract_rnd] after the land generation contains ["rnd"] and has no
    ['('], yet [extract_rnd] skips it (it only removes the directive from
    the output) instead of failing. *)
Lemma extract_rnd_skips_directive_line :
  contains "rnd" "#extract_rnd" = true /\
  find_char "(" "#extract_rnd" = None /\
  extract_rnd ["#EXTRACT_RND"; "ELEVATION_GENERATION"; "#extract_rnd"] =
    Some ["ELEVATION_GENERATION"].
Proof. repeat split; reflexivity. Qed.

(** C9 (amended): with the directive present, a line after the first line
    containing [ELEVATION_GENERATION] that contains ["rnd"], is not the
    directive itself, and is not of the form [instruction rnd(min,max)] with
    [u32] bounds [min < max], makes [extract_rnd] fail. *)
Theorem extract_rnd_malformed_fails :
  forall pre line post,
    existsb (fun l => eq_ignore_ascii_case l "#EXTRACT_RND") (pre ++ post) = true ->
    existsb (contains "ELEVATION_GENERATION") pre = true ->
    contains "rnd" line = true ->
    eq_ignore_ascii_case line "#EXTRACT_RND" = false ->
    rnd_line_well_formed line = false ->
    extract_rnd (pre ++ line :: post) = None.
Proof.
  intros pre line post Hdir Hel Hr Hx Hw.
  unfold extract_rnd.
  rewrite (forallb_negb_existsb (fun l => eq_ignore_ascii_case l "#EXTRACT_RND")).
  rewrite existsb_app in Hdir |- *. cbn [existsb]. rewrite Hx.
  destruct (existsb (fun l => eq_ignore_ascii_case l "#EXTRACT_RND") pre);
    [|simpl in Hdir; rewrite Hdir]; simpl; rewrite rnd_loop_app;
    (destruct (rnd_loop _ pre) as [st|] eqn:E; [|reflexivity]);
    simpl; rewrite rnd_step_malformed; try reflexivity; try assumption;
    apply (rnd_loop_passes_elevation pre _ _ Hel E).
Qed.

Lemma extract_rnd_malformed_fails_witness :
  extract_rnd (["#EXTRACT_RND"; "ELEVATION_GENERATION"] ++ ["x rnd(5,2)"] ++ []) = None.
Proof.
  apply extract_rnd_malformed_fails; reflexivity.
Defined.

(** ** Header comment *)

Lemma collect_header_from_mid :
  forall mid header lend post,
    forallb (fun l => negb (is_header_end l)) mid = true ->
    is_header_end lend = true ->
    collect_header_from header (mid ++ lend :: post) = Some (header ++ mid, post).
Proof.
  intros mid; induction mid as [|l mid IH]; intros header lend post Hmid Hend;
    cbn [app collect_header_from].
  - unfold is_header_end in Hend. rewrite Hend, app_nil_r. reflexivity.
  - cbn [forallb] in Hmid. apply andb_prop in Hmid as [Hl Hmid].
    apply negb_true_iff in Hl. unfold is_header_end in Hl. rewrite Hl.
    rewrite IH by assumption. rewrite <- app_assoc. reflexivity.
Qed.

(** C10: when the first line is the start sentinel (trimmed, any case) and a
    later line is the first end sentinel, the header is exactly the lines
    strictly between them, the rest is exactly the lines after the end
    sentinel, and the text written is the header followed by the processed
    rest: neither sentinel line is passed on. *)
Theorem header_sentinels_removed :
  forall (paren_macro : string -> string -> N -> list string)
         (plain_macro : string -> list string) first mid lend post,
    ueqb (to_uppercase (trim first)) (codes "#HEADER_START") = true ->
    is_header_end lend = true ->
    forallb (fun l => negb (is_header_end l)) mid = true ->
    collect_header_comment (first :: mid ++ lend :: post) = Some (mid, post) /\
    process_script paren_macro plain_macro (first :: mid ++ lend :: post) =
      (let* rest := process_body paren_macro plain_macro post in
       Some (write_until_break (mid ++ rest))).
Proof.
  intros pm pl first mid lend post Hs He Hmid.
  assert (Hc : collect_header_comment (first :: mid ++ lend :: post) = Some (mid, post)).
  { unfold collect_header_comment. rewrite Hs. simpl.
    apply collect_header_from_mid; assumption. }
  split; [exact Hc|].
  unfold process_script. rewrite Hc. reflexivity.
Qed.

Lemma header_sentinels_removed_witness :
  collect_header_comment (" #header_start" :: ["by someone"] ++ "#HEADER_END " :: ["a"]) =
    Some (["by someone"], ["a"]) /\
  process_script (fun _ _ _ => []) (fun _ => [])
      (" #header_start" :: ["by someone"] ++ "#HEADER_END " :: ["a"]) =
    (let* rest := process_body (fun _ _ _ => []) (fun _ => []) ["a"] in
     Some (write_until_break (["by someone"] ++ rest))).
Proof.
  apply header_sentinels_removed; reflexivity.
Defined.

(** * Further properties *)

(** ** Slot probabilities of [landgen] *)

Lemma forallb_seq_spec (f : nat -> bool) (n : nat) :
  forallb f (seq 0 n) = true -> forall i, i < n -> f i = true.
Proof.
  intros H i Hi. rewrite forallb_forall in H. apply H, in_seq. lia.
Qed.

Lemma opponent_rows_ok : forallb opponent_row_ok (seq 0 NUM_SLOTS) = true.
Proof. vm_compute. reflexivity. Qed.

(** For a player 1 in slot [i], the opponent probability of a slot [t] is
    non-zero exactly when [t] is one of the seven slots [p2_position]
    offers, [(i + 7 + j) % 20] for [j < 7]; over the twenty slots the
    probabilities add up to 100. *)
Theorem opponent_probability_rows :
  forall i, i < NUM_SLOTS ->
    (forall t, t < NUM_SLOTS ->
       exists p, opponent_probability i t = Some p /\
         (p <> 0%N <-> exists j, j < NUM_P2_POSITIONS /\ t = p2_slot i j)) /\
    exists ps, map (opponent_probability i) (seq 0 NUM_SLOTS) = map Some ps /\
               sum_N ps = 100%N.
Proof.
  intros i Hi.
  pose proof (forallb_seq_spec _ _ opponent_rows_ok i Hi) as H.
  unfold opponent_row_ok in H. apply andb_prop in H as [Hrow Hsum].
  split.
  - intros t Ht. pose proof (forallb_seq_spec _ _ Hrow t Ht) as Ht'. cbv beta in Ht'.
    destruct (opponent_probability i t) as [p|] eqn:E; [|discriminate].
    exists p. split; [reflexivity|].
    apply Bool.eqb_prop in Ht'.
    remember (existsb (fun j => t =? p2_slot i j) (seq 0 NUM_P2_POSITIONS)) as e eqn:He.
    split.
    + intros Hp. apply N.eqb_neq in Hp. rewrite Hp in Ht'. simpl in Ht'. subst e.
      symmetry in Ht'. apply existsb_exists in Ht' as [j [Hj Hj']].
      apply in_seq in Hj. apply Nat.eqb_eq in Hj'. exists j. split; [lia|exact Hj'].
    + intros [j [Hj Ht2]] Hp. subst p. simpl in Ht'.
      assert (Hx : e = true).
      { subst e. apply existsb_exists. exists j. split; [apply in_seq; lia|apply Nat.eqb_eq; exact Ht2]. }
      rewrite Hx in Ht'. discriminate.
  - assert (Hall : forall t, In t (seq 0 NUM_SLOTS) -> exists p, opponent_probability i t = Some p).
    { intros t Ht. apply in_seq in Ht. pose proof (forallb_seq_spec _ _ Hrow t ltac:(lia)) as Ht'.
      cbv beta in Ht'. destruct (opponent_probability i t); [eexists; reflexivity|discriminate]. }
    revert Hsum Hall. generalize (seq 0 NUM_SLOTS). intros ts Hsum Hall.
    exists (flat_map (fun t => match opponent_probability i t with
                              | Some p => [p] | None => [] end) ts).
    split; [|apply N.eqb_eq; exact Hsum].
    clear Hsum. induction ts as [|t ts IH]; [reflexivity|].
    destruct (Hall t (or_introl eq_refl)) as [p Hp]. simpl. rewrite Hp. simpl.
    rewrite IH; [reflexivity|]. intros t' Ht'. apply Hall. right. exact Ht'.
Qed.

Lemma p2_pos_all_ok : forallb p2_pos_ok (seq 0 NUM_SLOTS) = true.
Proof. vm_compute. reflexivity. Qed.

(** The [debug_assert!] of [p2_position] never fires: each of the seven
    candidate slots has a non-zero opponent probability, and it is the
    weight [define_labels] gives the label [P2_POS_j]. *)
Theorem p2_position_weights :
  forall i j, i < NUM_SLOTS -> j < NUM_P2_POSITIONS ->
    exists p, opponent_probability i (p2_slot i j) = Some p /\ p <> 0%N /\
      nth (23 + j) define_labels "" =
        "percent_chance " +++ string_of_N p +++ " #define P2_POS_" +++ string_of_N (N.of_nat j).
Proof.
  intros i j Hi Hj.
  pose proof (forallb_seq_spec _ _ (forallb_seq_spec _ _ p2_pos_all_ok i Hi) j Hj) as H.
  cbv beta in H. destruct (opponent_probability i (p2_slot i j)) as [p|]; [|discriminate].
  apply andb_prop in H as [H1 H2]. exists p. split; [reflexivity|]. split.
  - apply negb_true_iff, N.eqb_neq in H1. exact H1.
  - apply String.eqb_eq in H2. exact H2.
Qed.

(** ** [renormalize_probabilities] *)

Lemma u32_sum_from_value (acc t : N) (l : list N) :
  u32_sum_from acc l = Some t -> t = (acc + sum_N l)%N.
Proof.
  revert acc; induction l as [|x l IH]; intros acc H; simpl in H.
  - inversion H. simpl. lia.
  - destruct (u32_max <? acc + x)%N; [discriminate|]. apply IH in H. simpl. lia.
Qed.

Lemma set_nth_spec (l l' : list N) (i : nat) (v : N) :
  set_nth l i v = Some l' ->
  exists x, nth_error l i = Some x /\ (sum_N l' + x = sum_N l + v)%N /\
    List.length l' = List.length l /\
    (forall k, k <> i -> nth_error l' k = nth_error l k) /\ nth_error l' i = Some v.
Proof.
  revert i l'; induction l as [|y l IH]; intros [|i] l' H; simpl in H; try discriminate.
  - inversion H; subst. exists y. simpl. repeat split; try lia.
    intros [|k] Hk; [lia|reflexivity].
  - destruct (set_nth l i v) as [r|] eqn:E; [|discriminate]. inversion H; subst.
    destruct (IH i r E) as [x [Hx [Hs [Hl [Hk Hi]]]]]. exists x. simpl.
    repeat split; try lia; try assumption.
    intros [|k] Hk'; [reflexivity|]. apply Hk. lia.
Qed.

Lemma pointwise_le_refl (a : list N) : pointwise_le a a.
Proof. split; [reflexivity|]. intros k x y H1 H2. rewrite H1 in H2. inversion H2. lia. Qed.

Lemma pointwise_le_trans (a b c : list N) :
  pointwise_le a b -> pointwise_le b c -> pointwise_le a c.
Proof.
  intros [Hab Hab'] [Hbc Hbc']. split; [congruence|]. intros k x z Hx Hz.
  destruct (nth_error b k) as [y|] eqn:Hy.
  - specialize (Hab' k x y Hx Hy). specialize (Hbc' k y z Hy Hz). lia.
  - apply nth_error_None in Hy. assert (nth_error a k <> None) by congruence.
    apply nth_error_Some in H. lia.
Qed.

Lemma set_nth_dec (l l' : list N) (i : nat) (x v : N) :
  nth_error l i = Some x -> (v <= x)%N -> set_nth l i v = Some l' -> pointwise_le l' l.
Proof.
  intros Hx Hv H. destruct (set_nth_spec l l' i v H) as [x' [Hx' [_ [Hl [Hk Hi]]]]].
  split; [exact Hl|]. intros k a b Ha Hb.
  destruct (Nat.eq_dec k i) as [->|Hne].
  - rewrite Hi in Ha. inversion Ha. rewrite Hx in Hb. inversion Hb. lia.
  - rewrite Hk in Ha by exact Hne. rewrite Ha in Hb. inversion Hb. lia.
Qed.

Lemma renormalize_loop_spec (k : nat) (p out : list N) (i j : nat) :
  renormalize_loop k p i j = Some out ->
  (sum_N out + N.of_nat k = sum_N p)%N /\ pointwise_le out p.
Proof.
  revert p i j; induction k as [|k IH]; intros p i j H; cbn [renormalize_loop] in H.
  - inversion H; subst. split; [simpl; lia|apply pointwise_le_refl].
  - destruct (nth_error p i) as [x|] eqn:Hx; [|discriminate].
    destruct (nth_error p j) as [y|] eqn:Hy; [|discriminate].
    destruct (y <=? x)%N eqn:Hyx.
    + destruct (x =? 0)%N eqn:Hx0; [discriminate|]. apply N.eqb_neq in Hx0.
      destruct (set_nth p i (x - 1)%N) as [p'|] eqn:Hp'; [|discriminate].
      destruct (IH _ _ _ H) as [Hs Hle].
      destruct (set_nth_spec _ _ _ _ Hp') as [x' [Hx' [Hs' _]]].
      rewrite Hx in Hx'. inversion Hx'; subst x'.
      split; [lia|]. eapply pointwise_le_trans; [exact Hle|].
      eapply set_nth_dec; [exact Hx| |exact Hp']. lia.
    + apply N.leb_gt in Hyx.
      destruct (set_nth p j (y - 1)%N) as [p'|] eqn:Hp'; [|discriminate].
      destruct (set_nth_spec _ _ _ _ Hp') as [y' [Hy' [Hs' _]]].
      rewrite Hy in Hy'. inversion Hy'; subst y'.
      assert (Hdec : pointwise_le p' p) by (eapply set_nth_dec; [exact Hy| |exact Hp']; lia).
      assert (Hstep : forall i' j', renormalize_loop k p' i' j' = Some out ->
                (sum_N out + N.of_nat (S k) = sum_N p)%N /\ pointwise_le out p).
      { intros i' j' Hr. destruct (IH _ _ _ Hr) as [Hs Hle].
        split; [lia|]. eapply pointwise_le_trans; eassumption. }
      destruct (y =? 1)%N; [destruct (j =? 0); [discriminate|]|]; eapply Hstep; exact H.
Qed.

(** When [renormalize_probabilities] does not panic, the probabilities
    afterwards add up to 100 and their number is unchanged; when the total
    was above 100, no probability has grown. *)
Theorem renormalize_probabilities_total :
  forall probs left right out,
    renormalize_probabilities probs left right = Some out ->
    sum_N out = 100%N /\ List.length out = List.length probs /\
    ((100 < sum_N probs)%N -> pointwise_le out probs).
Proof.
  intros probs left right out H. unfold renormalize_probabilities in H.
  destruct (negb (left <=? right)); [discriminate|].
  destruct (u32_sum_from 0 probs) as [total|] eqn:Ht; [|discriminate].
  apply u32_sum_from_value in Ht. simpl in Ht. subst total.
  destruct (sum_N probs <? 100)%N eqn:Hlt.
  - apply N.ltb_lt in Hlt.
    destruct (nth_error probs ((left + right) / 2)) as [v|] eqn:Hv; [|discriminate].
    destruct (set_nth_spec _ _ _ _ H) as [x [Hx [Hs [Hl _]]]].
    rewrite Hv in Hx. inversion Hx; subst x.
    split; [lia|]. split; [exact Hl|]. intros Hgt. lia.
  - apply N.ltb_ge in Hlt. destruct (100 <? sum_N probs)%N eqn:Hgt.
    + apply N.ltb_lt in Hgt.
      destruct (first_nonzero probs) as [i|]; [|discriminate].
      destruct (last_nonzero probs) as [j|]; [|discriminate].
      destruct (renormalize_loop_spec _ _ _ _ _ H) as [Hs Hle].
      rewrite N2Nat.id in Hs. split; [lia|]. split; [apply Hle|]. intros _. exact Hle.
    + apply N.ltb_ge in Hgt. inversion H; subst.
      split; [lia|]. split; [reflexivity|]. intros Hc. lia.
Qed.

Lemma renormalize_probabilities_total_witness :
  renormalize_probabilities [0; 30; 50; 30; 0]%N 1 3 = Some [0; 25; 50; 25; 0]%N /\
  sum_N [0; 25; 50; 25; 0]%N = 100%N.
Proof.
  split; [reflexivity|].
  exact (proj1 (renormalize_probabilities_total [0; 30; 50; 30; 0]%N 1 3 _ eq_refl)).
Defined.

(** ** Comment stripping *)

Lemma substring_all (s : string) : substring 0 (String.length s) s = s.
Proof. induction s as [|c s IH]; simpl; [reflexivity|]. rewrite IH. reflexivity. Qed.

Lemma slice_to_from (a : nat) (s : string) :
  a <= String.length s -> slice_to a s +++ slice_from a s = s.
Proof.
  unfold slice_to, slice_from. revert a; induction s as [|c s IH]; intros [|a] Ha; simpl in *.
  - reflexivity.
  - lia.
  - rewrite substring_all. reflexivity.
  - f_equal. apply IH. lia.
Qed.

Lemma find_str_none_suffix (p s : string) (a : nat) :
  find_str p s = None -> find_str p (slice_from a s) = None.
Proof.
  unfold slice_from. revert a; induction s as [|c s IH]; intros [|a] H.
  - exact H.
  - exact H.
  - simpl String.length. rewrite Nat.sub_0_r.
    change (substring 0 (S (String.length s)) (String c s)) with (String c (substring 0 (String.length s) s)).
    rewrite substring_all. exact H.
  - cbn [find_str] in H. destruct (String.prefix p (String c s)); [discriminate|].
    assert (E : find_str p s = None) by (destruct (find_str p s); [discriminate|reflexivity]).
    simpl. apply IH. exact E.
Qed.

Lemma strip_no_open_fuel (f : nat) (s : string) :
  String.length s < f -> find_str "/*" s = None ->
  strip_line_comments_fuel f s 0 = (s, 0).
Proof.
  revert s; induction f as [|f IH]; intros s Hf Hs; [lia|].
  cbn [strip_line_comments_fuel]. rewrite Hs.
  destruct (find_str "*/" s) as [j|] eqn:Hj; [|reflexivity].
  unfold strip_end_comment. simpl.
  pose proof (delimiter_tail_shorter "*/" s j eq_refl Hj) as Hlt.
  rewrite IH by (try lia; apply find_str_none_suffix; exact Hs).
  apply find_str_bound in Hj. simpl in Hj.
  rewrite slice_to_from by lia. reflexivity.
Qed.

Lemma strip_no_close_fuel (f : nat) (s : string) (depth : nat) :
  String.length s < f -> 0 < depth -> find_str "*/" s = None ->
  fst (strip_line_comments_fuel f s depth) = "" /\
  depth <= snd (strip_line_comments_fuel f s depth).
Proof.
  revert s depth; induction f as [|f IH]; intros s depth Hf Hd Hs; [lia|].
  cbn [strip_line_comments_fuel]. rewrite Hs.
  destruct (find_str "/*" s) as [i|] eqn:Hi.
  - unfold strip_start_comment.
    pose proof (delimiter_tail_shorter "/*" s i eq_refl Hi) as Hlt.
    destruct (IH (slice_from (i + 2) s) (S depth)) as [H1 H2];
      [lia|lia|apply find_str_none_suffix; exact Hs|].
    destruct (strip_line_comments_fuel f (slice_from (i + 2) s) (S depth)) as [t d].
    simpl in *. subst t. destruct depth; [lia|]. simpl. split; [reflexivity|lia].
  - destruct depth; [lia|]. simpl. split; [reflexivity|lia].
Qed.

(** With no ["/*"] in any line, [strip_comments] returns the lines
    unchanged, unbalanced ["*/"] included; each line leaves the depth at 0,
    so the lines after them are stripped as from the start. *)
Theorem strip_comments_no_open :
  forall lines, Forall (fun line => find_str "/*" line = None) lines ->
    strip_comments lines = lines /\
    Forall (fun line => strip_line_comments line 0 = (line, 0)) lines /\
    (forall more, strip_comments (lines ++ more) = lines ++ strip_comments more).
Proof.
  intros lines H.
  assert (Hl : Forall (fun line => strip_line_comments line 0 = (line, 0)) lines).
  { eapply Forall_impl; [|exact H]. intros line Hline. unfold strip_line_comments.
    apply strip_no_open_fuel; [lia|exact Hline]. }
  assert (Happ : forall more, strip_comments (lines ++ more) = lines ++ strip_comments more).
  { unfold strip_comments. intros more. clear H.
    induction Hl as [|line rest E _ IH]; [reflexivity|].
    cbn [app strip_comments_from]. rewrite E, IH. reflexivity. }
  split; [|split; [exact Hl|exact Happ]].
  rewrite <- (app_nil_r lines) at 1. rewrite Happ. apply app_nil_r.
Qed.

Lemma strip_comments_no_open_witness :
  Forall (fun line => find_str "/*" line = None) ["a */ b"; "c"] /\
  strip_comments ["a */ b"; "c"] = ["a */ b"; "c"] /\
  strip_comments (["a */ b"; "c"] ++ ["/* x */ d"]) = ["a */ b"; "c"] ++ strip_comments ["/* x */ d"].
Proof.
  assert (H : Forall (fun line => find_str "/*" line = None) ["a */ b"; "c"])
    by (repeat constructor).
  destruct (strip_comments_no_open _ H) as [H1 [_ H3]].
  split; [exact H|]. split; [exact H1|apply H3].
Defined.

(** Inside an open comment, lines without ["*/"] become empty lines
    and the comment stays open. *)
Theorem strip_comments_inside_comment :
  forall depth lines rest,
    0 < depth -> Forall (fun line => find_str "*/" line = None) lines ->
    exists depth', depth <= depth' /\
      strip_comments_from depth (lines ++ rest) =
        map (fun _ => "") lines ++ strip_comments_from depth' rest.
Proof.
  intros depth lines rest Hd H. revert depth Hd.
  induction H as [|line ls Hl Hr IH]; intros depth Hd.
  - exists depth. split; [lia|reflexivity].
  - cbn [app strip_comments_from]. unfold strip_line_comments.
    destruct (strip_no_close_fuel (S (String.length line)) line depth) as [H1 H2];
      [lia|exact Hd|exact Hl|].
    destruct (strip_line_comments_fuel (S (String.length line)) line depth) as [t d].
    simpl in H1, H2. subst t.
    destruct (IH d ltac:(lia)) as [d' [Hd' Heq]].
    exists d'. split; [lia|]. rewrite Heq. reflexivity.
Qed.

Lemma strip_comments_inside_comment_witness :
  exists depth', 1 <= depth' /\
    strip_comments_from 1 (["a /* b"; "c"] ++ ["d */ e"]) =
      map (fun _ => "") ["a /* b"; "c"] ++ strip_comments_from depth' ["d */ e"].
Proof.
  apply (strip_comments_inside_comment 1 ["a /* b"; "c"] ["d */ e"]).
  - lia.
  - repeat constructor.
Defined.

(** ** Repeat blocks *)

Lemma repeat_loop_app (st : RepeatState) (l1 l2 : list string) :
  repeat_loop st (l1 ++ l2) = let* st' := repeat_loop st l1 in repeat_loop st' l2.
Proof.
  revert st; induction l1 as [|x l1 IH]; intros st; simpl; [reflexivity|].
  destruct (repeat_step st x); [apply IH|reflexivity].
Qed.

Lemma repeat_loop_top (ls out : list string) :
  forallb repeat_body_line ls = true ->
  repeat_loop ([], out) ls = Some ([], out ++ ls).
Proof.
  revert out; induction ls as [|line ls IH]; intros out H.
  - rewrite app_nil_r. reflexivity.
  - simpl in H. apply andb_prop in H as [Hl H].
    unfold repeat_body_line in Hl. apply andb_prop in Hl as [H1 H2].
    apply negb_true_iff in H1. apply negb_true_iff in H2.
    simpl. rewrite H1, H2. simpl. rewrite IH by exact H. rewrite <- app_assoc. reflexivity.
Qed.

Lemma fold_push_top (ts out : list string) :
  fold_left push_repeat_or_output ts ([], out) = ([], out ++ ts).
Proof.
  revert out; induction ts as [|t ts IH]; intros out; simpl.
  - rewrite app_nil_r. reflexivity.
  - rewrite IH, <- app_assoc. reflexivity.
Qed.

Lemma split_char_nonempty (c : ascii) (x : string) : split_char c x <> [].
Proof.
  destruct x as [|d t]; simpl; [discriminate|].
  destruct (Ascii.eqb c d); [discriminate|]. destruct (split_char c t); discriminate.
Qed.

Lemma split_char_app_sep (c : ascii) (x y : string) :
  split_char c (x +++ String c y) = split_char c x ++ split_char c y.
Proof.
  induction x as [|d x IH]; simpl.
  - rewrite Ascii.eqb_refl. reflexivity.
  - rewrite IH. destruct (Ascii.eqb c d); [reflexivity|].
    destruct (split_char c x) as [|w ws] eqn:E; [exfalso; exact (split_char_nonempty c x E)|].
    reflexivity.
Qed.

Lemma split_char_no_sep (c : ascii) (x : string) :
  find_char c x = None -> split_char c x = [x].
Proof.
  unfold find_char. induction x as [|d x IH]; intros H; [reflexivity|].
  cbn [find_str] in H. simpl in H.
  destruct (ascii_dec c d) as [E|Hne].
  { subst d. destruct x; discriminate. }
  assert (Hx : find_str (String c EmptyString) x = None)
    by (destruct (find_str (String c EmptyString) x); [discriminate|reflexivity]).
  simpl. apply Ascii.eqb_neq in Hne. rewrite Hne, IH by exact Hx. reflexivity.
Qed.

Lemma split_char_join (c : ascii) (ws : list string) :
  ws <> [] -> Forall (fun w => find_char c w = None) ws ->
  split_char c (join (String c EmptyString) ws) = ws.
Proof.
  induction ws as [|w ws IH]; intros Hne H; [contradiction|].
  inversion H as [|? ? Hw Hws]; subst.
  destruct ws as [|w2 ws'].
  - apply split_char_no_sep, Hw.
  - change (join (String c EmptyString) (w :: w2 :: ws'))
      with (w +++ String c (join (String c EmptyString) (w2 :: ws'))).
    rewrite split_char_app_sep, split_char_no_sep by exact Hw.
    rewrite IH by (discriminate || exact Hws). reflexivity.
Qed.

Lemma split_repeated_text (body : list string) (k : nat) :
  body <> [] -> Forall (fun w => find_char newline w = None) body ->
  split_char newline (join nl body +++ repeat_str (nl +++ join nl body) k) =
    List.concat (List.repeat body (S k)).
Proof.
  intros Hne H. induction k as [|k IH].
  - simpl. rewrite append_empty_r, app_nil_r. apply split_char_join; assumption.
  - cbn [repeat_str List.repeat List.concat].
    change (nl +++ join nl body) with (String newline (join nl body)).
    change (String newline (join nl body) +++ repeat_str (String newline (join nl body)) k)
      with (String newline (join nl body +++ repeat_str (String newline (join nl body)) k)).
    rewrite split_char_app_sep.
    change (String newline (join nl body)) with (nl +++ join nl body).
    rewrite IH. cbn [List.repeat List.concat].
    rewrite split_char_join by assumption. reflexivity.
Qed.

(** A [#REPEAT(n)] block with [n >= 1] and a non-empty body of plain
    lines expands to the body [n] times, in place. *)
Theorem repeat_block_expands :
  forall pre h n body post,
    forallb repeat_body_line pre = true ->
    ustarts_with "#REPEAT(" (to_uppercase h) = true ->
    parse_repeat_count h = Some n -> (0 < n)%N ->
    body <> [] -> forallb repeat_body_line body = true ->
    Forall (fun line => find_char newline line = None) body ->
    forallb repeat_body_line post = true ->
    repeat_lines (pre ++ h :: body ++ "#END_REPEAT" :: post) =
      Some (pre ++ List.concat (List.repeat body (N.to_nat n)) ++ post).
Proof.
  intros pre h n body post Hpre Hh Hn Hn0 Hne Hb Hnl Hpost.
  unfold repeat_lines. rewrite repeat_loop_app, repeat_loop_top by exact Hpre.
  cbn [repeat_loop repeat_step]. rewrite Hh, Hn. cbn beta iota.
  rewrite repeat_loop_app, repeat_loop_body by exact Hb.
  cbn [repeat_loop repeat_step].
  change (ustarts_with "#REPEAT(" (to_uppercase "#END_REPEAT")) with false.
  change (eq_ignore_ascii_case "#END_REPEAT" "#END_REPEAT") with true.
  cbn iota beta.
  unfold get_text. cbn [count rl_lines RepeatLines_new app].
  destruct (n =? 0)%N eqn:E; [apply N.eqb_eq in E; lia|].
  destruct (N.to_nat n) as [|k] eqn:Ek; [lia|].
  replace (S k - 1) with k by lia.
  rewrite split_repeated_text by assumption.
  rewrite fold_push_top, repeat_loop_top by exact Hpost.
  simpl. rewrite <- !app_assoc. reflexivity.
Qed.

Lemma repeat_block_expands_witness :
  repeat_lines (["x"] ++ "#repeat(2)" :: ["a"; "b"] ++ "#END_REPEAT" :: ["y"]) =
    Some (["x"] ++ List.concat (List.repeat ["a"; "b"] (N.to_nat 2)) ++ ["y"]).
Proof.
  apply repeat_block_expands; try reflexivity; try lia; try discriminate.
  repeat constructor.
Defined.

Lemma ueqb_eq (u v : ustr) : ueqb u v = true -> u = v.
Proof.
  revert v; induction u as [|x u IH]; intros [|y v] H; try discriminate; [reflexivity|].
  cbn [ueqb] in H. apply andb_prop in H as [H1 H2].
  apply Nat.eqb_eq in H1. rewrite H1, (IH v H2). reflexivity.
Qed.

Lemma upper_E (c : ascii) : ascii_upper c = "E"%char -> upper_codes c = [69].
Proof.
  intros H. assert (Hok : upper_E_ok = true) by (vm_compute; reflexivity).
  unfold upper_E_ok in Hok. rewrite forallb_forall in Hok.
  assert (Hin : In (nat_of_ascii c) (seq 0 256))
    by (apply in_seq; pose proof (nat_ascii_bounded c); lia).
  specialize (Hok _ Hin). cbv beta in Hok. rewrite ascii_nat_embedding, H in Hok.
  change (Ascii.eqb "E" "E") with true in Hok. apply ueqb_eq, Hok.
Qed.

Lemma upper_codes_shape (c : ascii) :
  (exists x, upper_codes c = [x]) \/ upper_codes c = [83; 83].
Proof.
  unfold upper_codes.
  destruct (code c =? 223); [right; reflexivity|].
  destruct (code c =? 181); [left; eexists; reflexivity|].
  destruct (code c =? 255); left; eexists; reflexivity.
Qed.

Lemma end_repeat_not_start (e : string) :
  eq_ignore_ascii_case e "#END_REPEAT" = true ->
  ustarts_with "#REPEAT(" (to_uppercase e) = false.
Proof.
  intros H. destruct e as [|c1 [|c2 e]]; cbn [eq_ignore_ascii_case] in H;
    [discriminate|rewrite andb_false_r in H; discriminate|].
  apply andb_prop in H as [_ H].
  apply andb_prop in H as [H _]. apply Ascii.eqb_eq in H.
  change (ascii_upper "E") with "E"%char in H.
  unfold ustarts_with. cbn [to_uppercase]. rewrite (upper_E c2 H).
  change (codes "#REPEAT(") with (35 :: 82 :: codes "EPEAT(").
  destruct (upper_codes_shape c1) as [[x ->]| ->]; cbn [app uprefix].
  - destruct (35 =? x); reflexivity.
  - reflexivity.
Qed.

Lemma fold_push_length (ts : list string) (st : RepeatState) :
  List.length (fst (fold_left push_repeat_or_output ts st)) = List.length (fst st).
Proof.
  revert st; induction ts as [|t ts IH]; intros [[|r rs] out]; cbn [fold_left];
    try reflexivity; rewrite IH; reflexivity.
Qed.

Lemma repeat_step_length (st st' : RepeatState) (line : string) :
  repeat_step st line = Some st' ->
  List.length (fst st') + (if is_repeat_close line then 1 else 0) =
    List.length (fst st) + (if is_repeat_open line then 1 else 0).
Proof.
  destruct st as [repeats out]. unfold repeat_step, is_repeat_close, is_repeat_open.
  destruct (ustarts_with "#REPEAT(" (to_uppercase line)); cbn [negb andb].
  - destruct (parse_repeat_count line); [|discriminate].
    intros H. injection H as <-. cbn [fst List.length]. lia.
  - destruct (eq_ignore_ascii_case line "#END_REPEAT").
    + destruct repeats as [|last rest]; [discriminate|].
      intros H. injection H as <-. rewrite fold_push_length. cbn [fst List.length]. lia.
    + intros H. injection H as <-. destruct repeats; cbn; lia.
Qed.

Lemma repeat_loop_length (ls : list string) (st st' : RepeatState) :
  repeat_loop st ls = Some st' ->
  List.length (fst st') + count_lines is_repeat_close ls =
    List.length (fst st) + count_lines is_repeat_open ls.
Proof.
  unfold count_lines. revert st; induction ls as [|line ls IH]; intros st H.
  - injection H as <-. cbn. lia.
  - cbn [repeat_loop] in H. destruct (repeat_step st line) as [st1|] eqn:E; [|discriminate].
    apply IH in H. apply repeat_step_length in E.
    cbn [filter]. destruct (is_repeat_close line), (is_repeat_open line); cbn [List.length] in *; lia.
Qed.

Lemma repeat_close_empty (out : list string) (e : string) :
  is_repeat_close e = true -> repeat_step ([], out) e = None.
Proof.
  unfold is_repeat_close, is_repeat_open, repeat_step. intros H.
  apply andb_prop in H as [H1 H2]. apply negb_true_iff in H1. rewrite H1, H2. reflexivity.
Qed.

(** An [#END_REPEAT] line with no open block (no more [#REPEAT(..)] lines
    than [#END_REPEAT] lines before it), or more [#REPEAT(..)] lines than
    [#END_REPEAT] lines in the whole script, makes [repeat_lines] panic. *)
Theorem repeat_unbalanced_fails :
  forall lines,
    (exists pre e rest,
        lines = pre ++ e :: rest /\ is_repeat_close e = true /\
        count_lines is_repeat_open pre <= count_lines is_repeat_close pre) \/
    count_lines is_repeat_close lines < count_lines is_repeat_open lines ->
    repeat_lines lines = None.
Proof.
  intros lines [(pre & e & rest & -> & He & Hc)|Hc]; unfold repeat_lines.
  - rewrite repeat_loop_app.
    destruct (repeat_loop ([], []) pre) as [[s1 o1]|] eqn:E; [|reflexivity].
    apply repeat_loop_length in E. cbn [fst List.length] in E.
    destruct s1; [|cbn [List.length] in E; lia].
    cbn [repeat_loop]. rewrite repeat_close_empty by exact He. reflexivity.
  - destruct (repeat_loop ([], []) lines) as [[s1 o1]|] eqn:E; [|reflexivity].
    apply repeat_loop_length in E. cbn [fst List.length] in E.
    destruct s1; [cbn [List.length] in E; lia|reflexivity].
Qed.

Lemma repeat_unbalanced_fails_witness :
  repeat_lines ["#REPEAT(2)"; "a"; "#END_REPEAT"; "#end_repeat"; "b"] = None /\
  repeat_lines ["#repeat(2)"; "#REPEAT(3)"; "a"; "#END_REPEAT"; "b"] = None.
Proof.
  split; apply repeat_unbalanced_fails.
  - left. exists ["#REPEAT(2)"; "a"; "#END_REPEAT"], "#end_repeat", ["b"].
    split; [reflexivity|]. split; [reflexivity|]. vm_compute. lia.
  - right. vm_compute. lia.
Defined.

(** Without repeat directives, [repeat_lines] returns its input. *)
Theorem repeat_lines_plain :
  forall lines, forallb repeat_body_line lines = true -> repeat_lines lines = Some lines.
Proof.
  intros lines H. unfold repeat_lines. rewrite repeat_loop_top by exact H. reflexivity.
Qed.

Lemma repeat_lines_plain_witness :
  repeat_lines ["a"; "#REPEAT"; "END_REPEAT"] = Some ["a"; "#REPEAT"; "END_REPEAT"].
Proof. apply repeat_lines_plain. reflexivity. Defined.

(** ** Per-player objects *)

Lemma assign_loop_app (st : ObjectState) (l1 l2 : list string) :
  assign_loop st (l1 ++ l2) = let* st' := assign_loop st l1 in assign_loop st' l2.
Proof.
  revert st; induction l1 as [|x l1 IH]; intros st; simpl; [reflexivity|].
  destruct (assign_step st x); [apply IH|reflexivity].
Qed.

Lemma assign_loop_outside (ls out : list string) (ep : bool) (np : N) :
  forallb outside_object_line ls = true ->
  assign_loop {| output := out; object := []; every_player := ep; num_players := np |} ls =
    Some {| output := out ++ ls; object := []; every_player := ep; num_players := np |}.
Proof.
  revert out; induction ls as [|line ls IH]; intros out H.
  - rewrite app_nil_r. reflexivity.
  - simpl in H. apply andb_prop in H as [Hl H].
    unfold outside_object_line in Hl. apply andb_prop in Hl as [H1 H2].
    apply negb_true_iff in H1. apply negb_true_iff in H2.
    simpl. unfold assign_step. simpl. rewrite H1, H2.
    rewrite IH by exact H. rewrite <- app_assoc. reflexivity.
Qed.

Lemma assign_loop_inside (body : list string) (st : ObjectState) :
  object st <> [] -> forallb object_body_line body = true ->
  assign_loop st body =
    Some {| output := output st; object := object st ++ body;
            every_player := every_player st; num_players := num_players st |}.
Proof.
  revert st; induction body as [|line body IH]; intros st Hne H.
  - destruct st; simpl. rewrite app_nil_r. reflexivity.
  - simpl in H. apply andb_prop in H as [Hl H].
    unfold object_body_line in Hl. apply andb_prop in Hl as [Hl H3].
    apply andb_prop in Hl as [H1 H2].
    apply negb_true_iff in H1. apply negb_true_iff in H2. apply negb_true_iff in H3.
    simpl. unfold assign_step.
    destruct (object st) as [|o os] eqn:Eo; [contradiction|].
    rewrite H1, H2, H3. rewrite IH; simpl.
    + rewrite <- app_assoc. reflexivity.
    + destruct os; discriminate.
    + exact H.
Qed.

Lemma starts_with_app (p s : string) : starts_with p s = true -> exists r, s = p +++ r.
Proof.
  unfold starts_with. revert s; induction p as [|c p IH]; intros s H.
  - exists s. reflexivity.
  - destruct s as [|d s]; [discriminate|]. simpl in H.
    destruct (ascii_dec c d) as [E|]; [|discriminate]. subst d.
    destruct (IH s H) as [r ->]. exists r. reflexivity.
Qed.

Lemma create_object_not_set_place (hdr : string) :
  starts_with "create_object" hdr = true ->
  eq_ignore_ascii_case hdr "#SET_PLACE_FOR_EVERY_PLAYER" = false.
Proof. intros H. destruct (starts_with_app _ _ H) as [r ->]. reflexivity. Qed.

Lemma create_object_not_close (hdr : string) :
  starts_with "create_object" hdr = true -> String.eqb hdr "}" = false.
Proof. intros H. destruct (starts_with_app _ _ H) as [r ->]. reflexivity. Qed.

Lemma assign_step_macro (st : ObjectState) (m : string) (np : N) :
  object st <> [] ->
  (m = "#SET_PLACE_FOR_EVERY_PLAYER" /\ np = 2%N \/ m = "#PLACE8" /\ np = 8%N) ->
  assign_step st m =
    Some {| output := output st; object := object st; every_player := true; num_players := np |}.
Proof.
  intros Hne Hm. unfold assign_step. destruct (object st); [contradiction|].
  destruct Hm as [[-> ->]|[-> ->]]; reflexivity.
Qed.

Lemma assign_step_close (st : ObjectState) :
  object st <> [] ->
  assign_step st "}" =
    Some {| output :=
              if every_player st then
                output st ++
                  flat_map (fun land_id =>
                              object st ++
                                ["place_on_specific_land_id " +++ string_of_N (N.of_nat land_id);
                                 "}"])
                    (seq 1 (N.to_nat (num_players st)))
              else output st ++ object st ++ ["}"];
            object := []; every_player := false; num_players := num_players st |}.
Proof. intros Hne. unfold assign_step. destruct (object st); [contradiction|reflexivity]. Qed.

Lemma assign_step_open (st : ObjectState) (hdr : string) :
  object st = [] -> starts_with "create_object" hdr = true ->
  assign_step st hdr =
    Some {| output := output st; object := [hdr]; every_player := every_player st;
            num_players := num_players st |}.
Proof.
  intros He Hh. unfold assign_step. rewrite He, create_object_not_set_place, Hh by exact Hh.
  reflexivity.
Qed.

(** An object block with [#SET_PLACE_FOR_EVERY_PLAYER] (or
    [#PLACE8]) is written once per land 1..2 (or 1..8), each copy closed by
    its [place_on_specific_land_id]; the lines around it pass unchanged. *)
Theorem object_block_per_player :
  forall pre hdr body1 m np body2 post,
    forallb outside_object_line pre = true ->
    starts_with "create_object" hdr = true ->
    forallb object_body_line body1 = true ->
    (m = "#SET_PLACE_FOR_EVERY_PLAYER" /\ np = 2%N \/ m = "#PLACE8" /\ np = 8%N) ->
    forallb object_body_line body2 = true ->
    forallb outside_object_line post = true ->
    assign_objects (pre ++ hdr :: body1 ++ m :: body2 ++ "}" :: post) =
      Some (pre ++
            flat_map (fun land_id =>
                        hdr :: body1 ++ body2 ++
                          ["place_on_specific_land_id " +++ string_of_N (N.of_nat land_id); "}"])
              (seq 1 (N.to_nat np)) ++ post).
Proof.
  intros pre hdr body1 m np body2 post Hpre Hh Hb1 Hm Hb2 Hpost.
  unfold assign_objects. rewrite assign_loop_app, assign_loop_outside by exact Hpre.
  cbn [assign_loop]. rewrite assign_step_open by (reflexivity || exact Hh).
  cbn [output object every_player num_players].
  rewrite assign_loop_app, assign_loop_inside by (discriminate || exact Hb1).
  cbn [assign_loop output object every_player num_players].
  rewrite (assign_step_macro _ m np) by (discriminate || exact Hm).
  cbn [output object every_player num_players].
  rewrite assign_loop_app, assign_loop_inside by (discriminate || exact Hb2).
  cbn [assign_loop output object every_player num_players].
  rewrite assign_step_close by discriminate.
  cbn [output object every_player num_players].
  rewrite assign_loop_outside by exact Hpost. cbn [object output].
  rewrite <- !app_assoc. erewrite flat_map_ext; [reflexivity|].
  intros k. cbn [app]. rewrite <- app_assoc. reflexivity.
Qed.

Lemma object_block_per_player_witness :
  assign_objects (["a"] ++ "create_object VILLAGER" :: ["number_of_objects 3"] ++
                  "#SET_PLACE_FOR_EVERY_PLAYER" :: [] ++ "}" :: ["b"]) =
    Some (["a"] ++
          flat_map (fun land_id =>
                      "create_object VILLAGER" :: ["number_of_objects 3"] ++ [] ++
                        ["place_on_specific_land_id " +++ string_of_N (N.of_nat land_id); "}"])
            (seq 1 (N.to_nat 2)) ++ ["b"]).
Proof.
  apply object_block_per_player; try reflexivity. left. split; reflexivity.
Defined.

Lemma assign_loop_open_stays (rest : list string) (st : ObjectState) :
  object st <> [] -> Forall (fun line => line <> "}") rest ->
  match assign_loop st rest with Some st' => object st' <> [] | None => True end.
Proof.
  intros Hne H. revert st Hne. induction H as [|line rest Hl _ IH]; intros st Hne; [exact Hne|].
  destruct st as [out obj ep np]. cbn [object] in Hne.
  destruct obj as [|o os]; [contradiction|].
  cbn [assign_loop]. unfold assign_step. cbn [object].
  destruct (String.eqb_spec line "}"); [contradiction|].
  destruct (String.eqb line "#SET_PLACE_FOR_EVERY_PLAYER"); [apply IH; discriminate|].
  destruct (String.eqb line "#PLACE8"); [apply IH; discriminate|].
  apply IH. cbn [object app]. discriminate.
Qed.

(** An object block without a placement macro is copied as it is,
    and a block left open at the end of the script (no ["}"] line after
    its [create_object] line) makes [assign_objects] panic. *)
Theorem object_block_plain_or_unclosed :
  forall pre hdr,
    forallb outside_object_line pre = true ->
    starts_with "create_object" hdr = true ->
    (forall body post,
       forallb object_body_line body = true -> forallb outside_object_line post = true ->
       assign_objects (pre ++ hdr :: body ++ "}" :: post) =
         Some (pre ++ hdr :: body ++ "}" :: post)) /\
    (forall rest, Forall (fun line => line <> "}") rest ->
       assign_objects (pre ++ hdr :: rest) = None).
Proof.
  intros pre hdr Hpre Hh. split.
  - intros body post Hb Hpost.
    unfold assign_objects. rewrite assign_loop_app, assign_loop_outside by exact Hpre.
    cbn [assign_loop]. rewrite assign_step_open by (reflexivity || exact Hh).
    cbn [output object every_player num_players].
    rewrite assign_loop_app, assign_loop_inside by (discriminate || exact Hb).
    cbn [assign_loop output object every_player num_players].
    rewrite assign_step_close by discriminate.
    cbn [output object every_player num_players].
    rewrite assign_loop_outside by exact Hpost. cbn [object output].
    rewrite <- !app_assoc. reflexivity.
  - intros rest Hrest.
    unfold assign_objects. rewrite assign_loop_app, assign_loop_outside by exact Hpre.
    cbn [assign_loop]. rewrite assign_step_open by (reflexivity || exact Hh).
    match goal with
    | |- match assign_loop ?st rest with _ => _ end = None =>
        pose proof (assign_loop_open_stays rest st) as Hs
    end.
    cbn [object] in Hs. specialize (Hs ltac:(discriminate) Hrest).
    destruct (assign_loop _ rest) as [st'|]; [|reflexivity].
    destruct (object st'); [contradiction|reflexivity].
Qed.

Lemma object_block_plain_or_unclosed_witness :
  assign_objects (["a"] ++ "create_object GOLD" :: ["x"] ++ "}" :: ["b"]) =
    Some (["a"] ++ "create_object GOLD" :: ["x"] ++ "}" :: ["b"]) /\
  assign_objects (["a"] ++ "create_object GOLD" :: ["x"; "#PLACE8"; "y"]) = None.
Proof.
  pose proof (object_block_plain_or_unclosed ["a"] "create_object GOLD" eq_refl eq_refl)
    as [H1 H2].
  split; [apply H1; reflexivity|].
  apply H2. repeat constructor; discriminate.
Defined.

(** ** Condensed lines and labels *)

Lemma condense_line_fixed (s : string) :
  condense_line_whitespace (condense_line_whitespace s) = condense_line_whitespace s.
Proof.
  unfold condense_line_whitespace at 1 2.
  rewrite split_whitespace_trim, split_whitespace_join
    by (rewrite split_whitespace_trim; apply split_whitespace_good).
  reflexivity.
Qed.

(** Every line [condense_whitespace] returns is non-empty and is
    left as it is by condensing it again. *)
Theorem condense_whitespace_lines :
  forall lines line, In line (condense_whitespace lines) ->
    line <> "" /\ condense_line_whitespace line = line.
Proof.
  intros lines line H. unfold condense_whitespace in H.
  apply filter_In in H as [Hin Hne]. apply in_map_iff in Hin as [s [<- _]].
  split.
  - intros E. rewrite E in Hne. discriminate.
  - apply condense_line_fixed.
Qed.

Lemma condense_whitespace_lines_witness :
  In "a b" (condense_whitespace ["  a   b "; " "]) /\
  ("a b" <> "" /\ condense_line_whitespace "a b" = "a b").
Proof.
  split; [vm_compute; left; reflexivity|].
  apply (condense_whitespace_lines ["  a   b "; " "]). vm_compute. left. reflexivity.
Defined.

(** ** Labels *)

Lemma length_append_str (a b : string) :
  String.length (a +++ b) = String.length a + String.length b.
Proof. induction a as [|c a IH]; simpl; [reflexivity|]. rewrite IH. reflexivity. Qed.

Lemma repeat_str_length (s : string) (k : nat) :
  String.length (repeat_str s k) = k * String.length s.
Proof.
  induction k as [|k IH]; [reflexivity|]. simpl repeat_str.
  rewrite length_append_str, IH. lia.
Qed.

Lemma repeat_str_snoc (s : string) (k : nat) :
  repeat_str s k +++ s = s +++ repeat_str s k.
Proof.
  induction k as [|k IH]; simpl.
  - rewrite append_empty_r. reflexivity.
  - rewrite append_assoc_str, IH. reflexivity.
Qed.

Lemma label_of_index_split (n : nat) :
  label_of_index n =
    ("_" +++ repeat_str "Z" (n / 26)) +++ String (ascii_of_nat (65 + n mod 26)) EmptyString.
Proof. unfold label_of_index. rewrite append_assoc_str. reflexivity. Qed.

Lemma div_mod_26_succ (n : nat) :
  (n mod 26 = 25 -> S n / 26 = S (n / 26) /\ S n mod 26 = 0) /\
  (n mod 26 <> 25 -> S n / 26 = n / 26 /\ S n mod 26 = S (n mod 26)).
Proof.
  pose proof (Nat.div_mod n 26 ltac:(lia)) as Hn.
  pose proof (Nat.mod_upper_bound n 26 ltac:(lia)) as Hr.
  split; intros H.
  - split; symmetry; [apply Nat.div_unique with 0|apply Nat.mod_unique with (S (n / 26))]; lia.
  - split; symmetry; [apply Nat.div_unique with (S (n mod 26))|apply Nat.mod_unique with (n / 26)]; lia.
Qed.

Lemma next_label_of_index (n : nat) :
  next_label (Some (label_of_index n)) = Some (label_of_index (S n)).
Proof.
  pose proof (Nat.mod_upper_bound n 26 ltac:(lia)) as Hr.
  destruct (div_mod_26_succ n) as [H25 Hlt].
  unfold next_label. rewrite label_of_index_split at 1. rewrite split_last_snoc.
  destruct (Nat.eq_dec (n mod 26) 25) as [E|E].
  - rewrite E. cbn [Nat.add]. change (Ascii.eqb (ascii_of_nat 90) "Z") with true.
    cbv iota. f_equal. destruct (H25 E) as [Hq Hm].
    unfold label_of_index. rewrite Hq, Hm, E.
    rewrite !append_assoc_str. f_equal. cbn [repeat_str].
    rewrite <- repeat_str_snoc, append_assoc_str. reflexivity.
  - destruct (Hlt E) as [Hq Hm].
    assert (Hc : code (ascii_of_nat (65 + n mod 26)) = 65 + n mod 26)
      by (unfold code; apply nat_ascii_embedding; lia).
    assert (Hz : Ascii.eqb (ascii_of_nat (65 + n mod 26)) "Z" = false).
    { apply Ascii.eqb_neq. intros Hx. apply (f_equal nat_of_ascii) in Hx.
      unfold code in Hc. rewrite Hc in Hx. change (nat_of_ascii "Z") with 90 in Hx. lia. }
    rewrite Hz, Hc. destruct (Nat.ltb_spec (65 + n mod 26) 128) as [_|]; [|lia].
    f_equal. rewrite label_of_index_split, Hq, Hm. f_equal.
Qed.

Lemma label_run_of_index (k n : nat) :
  label_run_from (Some (label_of_index n)) k = Some (map label_of_index (seq (S n) k)).
Proof.
  revert n; induction k as [|k IH]; intros n; [reflexivity|].
  cbn [label_run_from]. rewrite next_label_of_index, IH. reflexivity.
Qed.

Lemma label_of_index_inj (a b : nat) : label_of_index a = label_of_index b -> a = b.
Proof.
  intros H. rewrite !label_of_index_split in H.
  pose proof (Nat.mod_upper_bound a 26 ltac:(lia)) as Ha.
  pose proof (Nat.mod_upper_bound b 26 ltac:(lia)) as Hb.
  pose proof (Nat.div_mod a 26 ltac:(lia)) as Da.
  pose proof (Nat.div_mod b 26 ltac:(lia)) as Db.
  remember (a / 26) as qa. remember (a mod 26) as ra.
  remember (b / 26) as qb. remember (b mod 26) as rb.
  apply (f_equal split_last) in H. rewrite !split_last_snoc in H.
  injection H as Hq Hc.
  apply (f_equal String.length) in Hq. cbn [String.length String.append] in Hq.
  rewrite ?length_append_str, !repeat_str_length in Hq.
  apply (f_equal nat_of_ascii) in Hc. rewrite !nat_ascii_embedding in Hc by lia.
  cbn [String.length] in Hq. lia.
Qed.

(** The [k]-th label [next_label] produces from [&None] is an
    underscore, [k / 26] letters ['Z'] and the [k mod 26]-th capital letter;
    so however many random values a script extracts, no two share a
    label. *)
Theorem label_run_formula :
  forall k, label_run_from None k = Some (map label_of_index (seq 0 k)) /\
            NoDup (map label_of_index (seq 0 k)).
Proof.
  intros k. split.
  - destruct k as [|k]; [reflexivity|]. cbn [label_run_from].
    change (next_label None) with (Some (label_of_index 0)). cbv iota.
    rewrite label_run_of_index. reflexivity.
  - apply NoDup_map_NoDup_ForallPairs; [|apply seq_NoDup].
    intros x y _ _. apply label_of_index_inj.
Qed.

(** ** Actor-area IDs *)

Lemma area_ids_inv_insert (next : N) (m : list (string * N)) (name : string) :
  area_ids_inv next m -> contains_key m name = false ->
  area_ids_inv (next + 1) ((name, next) :: m).
Proof.
  intros [Hr [Hi Hn]] Hc. unfold contains_key in Hc.
  destruct (map_get m name) eqn:Em; [discriminate|].
  split; [|split].
  - intros k v H. simpl in H. destruct (String.eqb k name) eqn:E.
    + inversion H; subst. lia.
    + apply Hr in H. lia.
  - intros a b v Ha Hb. simpl in Ha, Hb.
    destruct (String.eqb a name) eqn:Ea; destruct (String.eqb b name) eqn:Eb.
    + apply String.eqb_eq in Ea, Eb. congruence.
    + inversion Ha; subst. apply Hr in Hb. exfalso. lia.
    + inversion Hb; subst. apply Hr in Ha. exfalso. lia.
    + exact (Hi a b v Ha Hb).
  - cbn [List.length]. rewrite Nat2N.inj_succ. lia.
Qed.

Lemma map_get_insert_old (m : list (string * N)) (name k : string) (v : N) :
  contains_key m name = false -> contains_key m k = true ->
  map_get ((name, v) :: m) k = map_get m k.
Proof.
  intros Hn Hk. simpl. destruct (String.eqb k name) eqn:E; [|reflexivity].
  apply String.eqb_eq in E. subst. congruence.
Qed.

Lemma assign_area_ids_inv (lines : list string) :
  forall next m0 m,
    assign_area_ids next m0 lines = Some m -> area_ids_inv next m0 ->
    (exists next', area_ids_inv next' m) /\
    (forall k, contains_key m0 k = true -> map_get m k = map_get m0 k) /\
    (forall line n, In line lines -> declared_name line = Some (Some n) ->
                    contains_key m n = true).
Proof.
  induction lines as [|line rest IH]; intros next m0 m H Hinv.
  - inversion H; subst. split; [exists next; exact Hinv|]. split; [reflexivity|].
    intros line n [].
  - cbn [assign_area_ids] in H.
    destruct (declared_name line) as [d|] eqn:Ed; [|discriminate].
    assert (Hgen : forall next1 m1, assign_area_ids next1 m1 rest = Some m ->
              area_ids_inv next1 m1 ->
              (forall k, contains_key m0 k = true -> map_get m1 k = map_get m0 k) ->
              (forall n, d = Some n -> contains_key m1 n = true) ->
              (exists next', area_ids_inv next' m) /\
              (forall k, contains_key m0 k = true -> map_get m k = map_get m0 k) /\
              (forall line' n, In line' (line :: rest) ->
                 declared_name line' = Some (Some n) -> contains_key m n = true)).
    { intros next1 m1 Hr Hinv1 Hold Hd.
      destruct (IH next1 m1 m Hr Hinv1) as [Hex [Hkeep Hcov]].
      split; [exact Hex|]. split.
      - intros k Hk. rewrite Hkeep; [apply Hold, Hk|].
        unfold contains_key. rewrite Hold by exact Hk. exact Hk.
      - intros line' n [<-|Hin] Hn.
        + rewrite Ed in Hn. inversion Hn; subst.
          specialize (Hd n eq_refl). unfold contains_key. rewrite Hkeep by exact Hd.
          exact Hd.
        + exact (Hcov line' n Hin Hn). }
    destruct d as [name|].
    + destruct (contains_key m0 name) eqn:Ec.
      * apply (Hgen next m0 H Hinv); [reflexivity|]. intros n Hn. inversion Hn; subst. exact Ec.
      * apply (Hgen (next + 1)%N ((name, next) :: m0) H).
        -- apply area_ids_inv_insert; assumption.
        -- intros k Hk. apply map_get_insert_old; assumption.
        -- intros n Hn. inversion Hn; subst. unfold contains_key. simpl.
           rewrite String.eqb_refl. reflexivity.
    + apply (Hgen next m0 H Hinv); [reflexivity|]. intros n Hn. discriminate.
Qed.

(** The ID table of [substitute_actor_area_names] gives every
    declared name an ID, IDs from 20000 up to 20000 plus the number of
    names, and distinct names distinct IDs. *)
Theorem actor_area_ids_distinct :
  forall lines m,
    assign_area_ids base_area_id [] lines = Some m ->
    (forall a b v, map_get m a = Some v -> map_get m b = Some v -> a = b) /\
    (forall a v, map_get m a = Some v ->
       (base_area_id <= v < base_area_id + N.of_nat (List.length m))%N) /\
    (forall line n, In line lines -> declared_name line = Some (Some n) ->
       contains_key m n = true).
Proof.
  intros lines m H.
  assert (H0 : area_ids_inv base_area_id []).
  { split; [intros k v Hk; discriminate|]. split; [intros a b v Ha; discriminate|].
    simpl. lia. }
  destruct (assign_area_ids_inv lines base_area_id [] m H H0) as [[next [Hr [Hi Hn]]] [_ Hcov]].
  split; [exact Hi|]. split; [|exact Hcov].
  intros a v Ha. pose proof (Hr a v Ha). lia.
Qed.

Lemma actor_area_ids_distinct_witness :
  exists m, assign_area_ids base_area_id []
              ["actor_area a"; "create_actor_area 1 2 b 3"; "actor_area a"] = Some m /\
    (forall a b v, map_get m a = Some v -> map_get m b = Some v -> a = b).
Proof.
  eexists. split; [reflexivity|].
  exact (proj1 (actor_area_ids_distinct
                  ["actor_area a"; "create_actor_area 1 2 b 3"; "actor_area a"] _ eq_refl)).
Defined.

(** A reference [actor_area NAME], [avoid_actor_area NAME] or
    [actor_area_to_place_in NAME] is rewritten to the ID of [NAME] when the
    table has one, and left as it is otherwise. *)
Theorem substitute_area_reference :
  forall m cmd name,
    In cmd ["actor_area"; "avoid_actor_area"; "actor_area_to_place_in"] ->
    substitute_line m (cmd +++ " " +++ name) =
      Some (match map_get m name with
            | Some id => cmd +++ " " +++ string_of_N id
            | None => cmd +++ " " +++ name
            end).
Proof.
  intros m cmd name Hin.
  assert (Hp : String.prefix "" name = true) by (destruct name; reflexivity).
  destruct Hin as [<-|[<-|[<-|[]]]]; unfold substitute_line, find_char, slice_to, slice_from;
    cbn -[map_get string_of_N mem_str]; rewrite Hp; cbn -[map_get string_of_N];
    rewrite ?Nat.sub_0_r, substring_all; destruct (map_get m name); reflexivity.
Qed.

Lemma substitute_area_reference_witness :
  substitute_line [("foo", 20000%N)] ("avoid_actor_area" +++ " " +++ "foo") =
    Some (match map_get [("foo", 20000%N)] "foo" with
          | Some id => "avoid_actor_area" +++ " " +++ string_of_N id
          | None => "avoid_actor_area" +++ " " +++ "foo"
          end).
Proof. apply substitute_area_reference. right. left. reflexivity. Defined.

(** ** Break, header, macros and random values *)

Lemma lines_until_break_app (a b : list string) (l : string) :
  forallb (fun x => negb (ucontains "#BREAK" (to_uppercase x))) a = true ->
  lines_until_break a = a /\
  (ucontains "#BREAK" (to_uppercase l) = true -> lines_until_break (a ++ l :: b) = a).
Proof.
  induction a as [|x a IH]; intros H.
  - split; [reflexivity|]. intros Hl. simpl. rewrite Hl. reflexivity.
  - simpl in H. apply andb_prop in H as [Hx H]. apply negb_true_iff in Hx.
    destruct (IH H) as [H1 H2]. split.
    + simpl. rewrite Hx, H1. reflexivity.
    + intros Hl. simpl. rewrite Hx, H2 by exact Hl. reflexivity.
Qed.

(** The text written stops before the first line that contains
    [#BREAK] in any case, and that line is not written; a script without
    such a line is written whole. *)
Theorem write_until_break_cut :
  forall a l b,
    forallb (fun x => negb (ucontains "#BREAK" (to_uppercase x))) a = true ->
    write_until_break a = join nl a /\
    (ucontains "#BREAK" (to_uppercase l) = true -> write_until_break (a ++ l :: b) = join nl a).
Proof.
  intros a l b H. destruct (lines_until_break_app a b l H) as [H1 H2].
  unfold write_until_break. rewrite H1. split; [reflexivity|].
  intros Hl. rewrite H2 by exact Hl. reflexivity.
Qed.

Lemma write_until_break_cut_witness :
  write_until_break ["a"; "b"] = join nl ["a"; "b"] /\
  (ucontains "#BREAK" (to_uppercase "x #break y") = true ->
   write_until_break (["a"; "b"] ++ "x #break y" :: ["c"]) = join nl ["a"; "b"]).
Proof. apply write_until_break_cut. reflexivity. Defined.

(** [#BREAK] is also searched in the header comment: a header line
    containing it cuts the output there, and none of the processed script
    after the header is written. *)
Theorem break_in_header_drops_body :
  forall (paren_macro : string -> string -> N -> list string)
         (plain_macro : string -> list string) first h1 brk h2 lend post out,
    ueqb (to_uppercase (trim first)) (codes "#HEADER_START") = true ->
    forallb (fun l => negb (is_header_end l)) (h1 ++ brk :: h2) = true ->
    is_header_end lend = true ->
    forallb (fun x => negb (ucontains "#BREAK" (to_uppercase x))) h1 = true ->
    ucontains "#BREAK" (to_uppercase brk) = true ->
    process_body paren_macro plain_macro post = Some out ->
    process_script paren_macro plain_macro (first :: (h1 ++ brk :: h2) ++ lend :: post) =
      Some (join nl h1).
Proof.
  intros pm pl first h1 brk h2 lend post out Hs Hmid He Hh1 Hbrk Hbody.
  unfold process_script, collect_header_comment. rewrite Hs. cbn [negb].
  rewrite collect_header_from_mid by assumption. cbn [app].
  rewrite Hbody. f_equal.
  destruct (lines_until_break_app h1 (h2 ++ out) brk Hh1) as [_ H2].
  unfold write_until_break. rewrite <- !app_assoc. cbn [app]. rewrite H2 by exact Hbrk.
  reflexivity.
Qed.

Lemma break_in_header_drops_body_witness :
  process_script (fun _ _ _ => []) (fun _ => [])
    ("#header_start" :: (["a"] ++ "#break" :: ["b"]) ++ "#header_end" :: ["x"]) =
    Some (join nl ["a"]).
Proof.
  apply (break_in_header_drops_body _ _ _ _ _ _ _ _ ["x"]); reflexivity.
Defined.

Lemma collect_header_from_unended (rest header : list string) :
  forallb (fun l => negb (is_header_end l)) rest = true ->
  collect_header_from header rest = None.
Proof.
  revert header; induction rest as [|l rest IH]; intros header H; [reflexivity|].
  cbn [forallb] in H. apply andb_prop in H as [Hl H]. apply negb_true_iff in Hl.
  unfold is_header_end in Hl. cbn [collect_header_from]. rewrite Hl. apply IH, H.
Qed.

(** A header comment that is opened but never closed makes
    [process_script] panic, whatever follows; a first line that is not the
    start sentinel leaves the script without header. *)
Theorem header_unclosed_fails :
  forall (paren_macro : string -> string -> N -> list string)
         (plain_macro : string -> list string) first rest,
    (ueqb (to_uppercase (trim first)) (codes "#HEADER_START") = true ->
     forallb (fun l => negb (is_header_end l)) rest = true ->
     process_script paren_macro plain_macro (first :: rest) = None) /\
    (ueqb (to_uppercase (trim first)) (codes "#HEADER_START") = false ->
     collect_header_comment (first :: rest) = Some ([], first :: rest)).
Proof.
  intros pm pl first rest. split.
  - intros Hs Hr. unfold process_script, collect_header_comment. rewrite Hs. cbn [negb].
    rewrite collect_header_from_unended by exact Hr. reflexivity.
  - intros Hs. unfold collect_header_comment. rewrite Hs. reflexivity.
Qed.

Lemma header_unclosed_fails_witness :
  process_script (fun _ _ _ => []) (fun _ => []) ["#HEADER_START"; "a"; "b"] = None.
Proof. apply (proj1 (header_unclosed_fails _ _ "#HEADER_START" ["a"; "b"])); reflexivity. Defined.

(** Lines that are not macro calls pass [insert_macros] unchanged:
    a line without ['('] whose upper-cased text is no plain directive, and a
    line with ['('] but without [','] or without [')']. *)
Theorem insert_macros_plain_lines :
  forall (paren_macro : string -> string -> N -> list string)
         (plain_macro : string -> list string) lines,
    Forall (fun line =>
              (find_char "(" line = None /\ find_registry (to_uppercase line) plain_registry = None) \/
              (find_char "(" line <> None /\
               (find_char "," line = None \/ find_char ")" line = None))) lines ->
    insert_macros paren_macro plain_macro lines = Some lines.
Proof.
  intros pm pl lines H. induction H as [|line rest Hl Hr IH]; [reflexivity|].
  cbn [insert_macros]. rewrite IH.
  assert (He : expand_line pm pl line = Some [line]).
  { unfold expand_line.
    destruct Hl as [[Hp Hm]|[Hp [Hc|Hc]]].
    - rewrite Hp, Hm. reflexivity.
    - destruct (find_char "(" line); [|contradiction]. rewrite Hc. reflexivity.
    - destruct (find_char "(" line); [|contradiction].
      destruct (find_char "," line); [|reflexivity]. rewrite Hc. reflexivity. }
  rewrite He. reflexivity.
Qed.

Lemma insert_macros_plain_lines_witness :
  insert_macros (fun _ _ _ => []) (fun _ => []) ["terrain_type GRASS"; "f(x"; "g(1,2"] =
    Some ["terrain_type GRASS"; "f(x"; "g(1,2"].
Proof.
  apply insert_macros_plain_lines.
  apply Forall_cons; [left; split; reflexivity|].
  apply Forall_cons; [right; split; [discriminate|left; reflexivity]|].
  apply Forall_cons; [right; split; [discriminate|right; reflexivity]|].
  apply Forall_nil.
Defined.

Lemma rnd_loop_before_land (pre : list string) (st : RndState) :
  finished_land st = false ->
  forallb (fun l => negb (not_rnd_directive l) ||
                    negb (contains "ELEVATION_GENERATION" l)) pre = true ->
  rnd_loop st pre =
    Some {| preamble := preamble st; body := body st ++ filter not_rnd_directive pre;
            label := label st; finished_land := false |}.
Proof.
  revert st; induction pre as [|l pre IH]; intros st F H.
  - destruct st; simpl in *; subst. rewrite app_nil_r. reflexivity.
  - simpl in H. apply andb_prop in H as [Hl H].
    cbn [rnd_loop filter]. unfold rnd_step, not_rnd_directive in *.
    destruct (eq_ignore_ascii_case l "#EXTRACT_RND") eqn:Ed; cbn [negb orb] in Hl |- *.
    + apply IH; assumption.
    + rewrite F. cbn [negb]. apply negb_true_iff in Hl. rewrite Hl.
      rewrite IH by (reflexivity || exact H). cbn. rewrite <- app_assoc. reflexivity.
Qed.

Lemma rnd_loop_no_rnd (post : list string) (st : RndState) :
  forallb (fun l => negb (not_rnd_directive l) || negb (contains "rnd" l)) post = true ->
  exists f, rnd_loop st post =
    Some {| preamble := preamble st; body := body st ++ filter not_rnd_directive post;
            label := label st; finished_land := f |}.
Proof.
  revert st; induction post as [|l post IH]; intros st H.
  - exists (finished_land st). destruct st; simpl. rewrite app_nil_r. reflexivity.
  - simpl in H. apply andb_prop in H as [Hl H].
    cbn [rnd_loop filter]. unfold rnd_step, not_rnd_directive in *.
    destruct (eq_ignore_ascii_case l "#EXTRACT_RND") eqn:Ed; cbn [negb orb] in Hl |- *.
    + apply IH, H.
    + apply negb_true_iff in Hl.
      destruct (finished_land st); cbn [negb].
      * rewrite Hl. cbn [negb].
        destruct (IH {| preamble := preamble st; body := body st ++ [l]; label := label st;
                        finished_land := true |} H) as [f Hf].
        rewrite Hf. exists f. cbn. rewrite <- app_assoc. reflexivity.
      * destruct (IH {| preamble := preamble st; body := body st ++ [l]; label := label st;
                        finished_land := contains "ELEVATION_GENERATION" l |} H) as [f Hf].
        rewrite Hf. exists f. cbn. rewrite <- app_assoc. reflexivity.
Qed.

(** When the script is a part [pre] with no line containing
    [ELEVATION_GENERATION] followed by a part [post] with no line containing
    ["rnd"] (directive lines aside), [extract_rnd] only removes the
    [#EXTRACT_RND] directive lines: lines with ["rnd"] before the land
    generation is done are not expanded. *)
Theorem extract_rnd_without_rnd_lines :
  forall pre post,
    forallb (fun l => negb (not_rnd_directive l) ||
                      negb (contains "ELEVATION_GENERATION" l)) pre = true ->
    forallb (fun l => negb (not_rnd_directive l) || negb (contains "rnd" l)) post = true ->
    extract_rnd (pre ++ post) = Some (filter not_rnd_directive (pre ++ post)).
Proof.
  intros pre post Hpre Hpost. unfold extract_rnd.
  destruct (forallb (fun line => negb (eq_ignore_ascii_case line "#EXTRACT_RND")) (pre ++ post))
    eqn:Hall.
  - f_equal. symmetry. apply forallb_filter_id. exact Hall.
  - change (next_label None) with (Some "_A"). cbv iota.
    rewrite rnd_loop_app, rnd_loop_before_land by (reflexivity || exact Hpre).
    cbn [preamble body label].
    destruct (rnd_loop_no_rnd post
                {| preamble := []; body := [] ++ filter not_rnd_directive pre; label := "_A";
                   finished_land := false |} Hpost) as [f Hf].
    rewrite Hf. cbn. rewrite filter_app. reflexivity.
Qed.

Lemma extract_rnd_without_rnd_lines_witness :
  extract_rnd (["x rnd(1,2)"; "#EXTRACT_RND"] ++ ["ELEVATION_GENERATION"; "y"]) =
    Some (filter not_rnd_directive (["x rnd(1,2)"; "#EXTRACT_RND"] ++
                                    ["ELEVATION_GENERATION"; "y"])).
Proof. apply extract_rnd_without_rnd_lines; reflexivity. Defined.
